(* ===================================================================== *)
(* apisix-mesh-agent: the xDS file provisioner (package file) and the    *)
(* iptables set-up command (cmd/iptables), embedded shallowly.           *)
(*                                                                       *)
(* Go slices are lists, indexed with stdpp's lookup and insert; an index *)
(* out of range is a run-time panic in Go and is the [Panic] outcome     *)
(* here.  Go maps with string keys are gmaps.  The provisioner's fields  *)
(* are threaded explicitly through the functions that mutate them.       *)
(* ===================================================================== *)

From Stdlib Require Import Ascii.
From stdpp Require Import gmap strings list fin_maps sorting.

Set Default Proof Using "Type".

(* --------------------------------------------------------------------- *)
(* Outcomes of code that may panic                                       *)
(* --------------------------------------------------------------------- *)

Inductive result (A : Type) : Type :=
  | Ok (a : A)
  | Panic.
Arguments Ok {A} a.
Arguments Panic {A}.

Definition rbind {A B : Type} (r : result A) (k : A → result B) : result B :=
  match r with
  | Ok a => k a
  | Panic => Panic
  end.

Notation "x ←! r ; k" := (rbind r (λ x, k))
  (at level 20, r at level 100, k at level 200, right associativity,
   format "x  ←!  r ;  '/' k").
Notation "' p ←! r ; k" := (rbind r (λ x, let 'p := x in k))
  (at level 20, p pattern, r at level 100, k at level 200,
   right associativity, format "' p  ←!  r ;  '/' k").

(** [s[i]] on a Go slice: the element, or a panic out of range. *)
Definition index {A : Type} (s : list A) (i : nat) : result A :=
  match s !! i with
  | Some x => Ok x
  | None => Panic
  end.

(* --------------------------------------------------------------------- *)
(* pkg/types/apisix and pkg/types: the target model and the events       *)
(* --------------------------------------------------------------------- *)

(** The generated protobuf structs apisix.Node, apisix.Route and
    apisix.Upstream are declared outside the provisioner.  The fields the
    provisioner reads or writes are [Name] and [Nodes]; the others are
    carried along unchanged. *)
Record Node : Type := mkNode {
  node_Host : string;
  node_Port : Z;
  node_Weight : Z
}.

Record Route : Type := mkRoute {
  route_Id : string;
  route_Name : string;
  route_Uris : list string;
  route_UpstreamId : string
}.

Record Upstream : Type := mkUpstream {
  ups_Id : string;
  ups_Name : string;
  ups_Type : string;
  ups_Nodes : list Node
}.

#[global] Instance Node_eq_dec : EqDecision Node.
Proof. solve_decision. Defined.
#[global] Instance Route_eq_dec : EqDecision Route.
Proof. solve_decision. Defined.
#[global] Instance Upstream_eq_dec : EqDecision Upstream.
Proof. solve_decision. Defined.

Inductive EventType : Type := EventAdd | EventUpdate | EventDelete.

#[global] Instance EventType_eq_dec : EqDecision EventType.
Proof. solve_decision. Defined.

(** [Object] is an interface{} in Go; the provisioner stores routes and
    upstreams in it. *)
Inductive Resource : Type :=
  | RouteObject (r : Route)
  | UpstreamObject (u : Upstream).

#[global] Instance Resource_eq_dec : EqDecision Resource.
Proof. solve_decision. Defined.

Record Event : Type := mkEvent {
  Type_ : EventType;
  Object : Resource
}.

#[global] Instance Event_eq_dec : EqDecision Event.
Proof. solve_decision. Defined.

(** Type URLs of the three recognised resource kinds (constants of
    pkg/types; the values are the Envoy v3 type URLs). *)
Definition RouteConfigurationUrl : string :=
  "type.googleapis.com/envoy.config.route.v3.RouteConfiguration".
Definition ClusterUrl : string :=
  "type.googleapis.com/envoy.config.cluster.v3.Cluster".
Definition ClusterLoadAssignmentUrl : string :=
  "type.googleapis.com/envoy.config.endpoint.v3.ClusterLoadAssignment".

(* --------------------------------------------------------------------- *)
(* pkg/provisioner/util: Manifest                                        *)
(* --------------------------------------------------------------------- *)

Record Manifest : Type := mkManifest {
  Routes : list Route;
  Upstreams : list Upstream
}.

#[global] Instance Manifest_eq_dec : EqDecision Manifest.
Proof. solve_decision. Defined.

(** The zero value [var rm util.Manifest]. *)
Definition emptyManifest : Manifest := mkManifest [] [].

(** Modelled from the spec: Manifest.Size is not among the sources; the
    number of resources (routes and upstreams) of the manifest. *)
Definition Size (m : Manifest) : nat :=
  length (Routes m) + length (Upstreams m).

(** Modelled from the spec: Manifest.Events is not among the sources; one
    event of the given type per resource of the manifest, routes before
    upstreams, each kind in the manifest's order. *)
Definition Events (m : Manifest) (ty : EventType) : list Event :=
  (mkEvent ty ∘ RouteObject <$> Routes m)
    ++ (mkEvent ty ∘ UpstreamObject <$> Upstreams m).

(* The comparison of two resource lists behind Manifest.DiffFrom; resources
   are paired by Name and paired resources compared by content. *)
Section Compare.
Context {A : Type} `{EqDecision A} (name : A → string).

(** Modelled from the spec: the lookup of a resource by Name, which the
    sources do not contain; the first entry of the list with that Name. *)
Definition findByName (n : string) (l : list A) : option A :=
  snd <$> list_find (λ x, name x = n) l.

(** Modelled from the spec: a resource present only in [new] is added. *)
Definition compareAdded (old new : list A) : list A :=
  List.filter (λ r, bool_decide (findByName (name r) old = None)) new.

(** Modelled from the spec: a resource present only in [old] is deleted. *)
Definition compareDeleted (old new : list A) : list A :=
  List.filter (λ o, bool_decide (findByName (name o) new = None)) old.

(** Modelled from the spec: a resource present in both with differing
    content is updated (the new content is reported); one present in both
    with identical content is ignored. *)
Definition compareUpdated (old new : list A) : list A :=
  List.filter (λ r, match findByName (name r) old with
                    | Some o => bool_decide (o ≠ r)
                    | None => false
                    end) new.
End Compare.

(** Modelled from the spec: Manifest.DiffFrom is not among the sources;
    [DiffFrom old new] is the triple (added, deleted, updated), each
    partitioned per resource kind. *)
Definition DiffFrom (old new : Manifest) : Manifest * Manifest * Manifest :=
  (mkManifest (compareAdded route_Name (Routes old) (Routes new))
              (compareAdded ups_Name (Upstreams old) (Upstreams new)),
   mkManifest (compareDeleted route_Name (Routes old) (Routes new))
              (compareDeleted ups_Name (Upstreams old) (Upstreams new)),
   mkManifest (compareUpdated route_Name (Routes old) (Routes new))
              (compareUpdated ups_Name (Upstreams old) (Upstreams new))).

(* --------------------------------------------------------------------- *)
(* Collaborators of the provisioner                                      *)
(* --------------------------------------------------------------------- *)

(** anypb.Any and discoveryv3.DiscoveryResponse, as far as the provisioner
    looks into them. *)
Record Any : Type := mkAny {
  TypeUrl : string;
  Value : list Byte.byte
}.

Record DiscoveryResponse : Type := mkDiscoveryResponse {
  Resources : list Any
}.

(** protojson.Unmarshal: decoding the bytes of a file, [None] on error. *)
Class Decoder : Type := {
  Unmarshal : list Byte.byte → option DiscoveryResponse
}.

(** Modelled from the spec: the three conversion methods of the
    provisioner (processRouteConfigurationV3, processClusterV3 and
    processClusterLoadAssignmentV3) are not among the sources; each turns
    one raw resource into a list of target resources through the Adaptor,
    without side effects, and may return the empty list. *)
Class Adaptor : Type := {
  processRouteConfigurationV3 : Any → list Route;
  processClusterV3 : Any → list Upstream;
  processClusterLoadAssignmentV3 : Any → list Upstream
}.

(** fsnotify.Op is a bit mask; the watcher's constants. *)
Definition Op : Type := N.
Definition Create : Op := 1%N.
Definition Write : Op := 2%N.
Definition Remove : Op := 4%N.
Definition Rename : Op := 8%N.
Definition Chmod : Op := 16%N.

Record FsEvent : Type := mkFsEvent {
  ev_Name : string;
  ev_Op : Op
}.

(* --------------------------------------------------------------------- *)
(* xdsFileProvisioner                                                    *)
(* --------------------------------------------------------------------- *)

(** The mutable fields of the provisioner.  [state] maps a file name to a
    *util.Manifest, which may be nil: an entry holding [None] is a file
    name recorded with a nil manifest, not a missing entry. *)
Record xdsFileProvisioner : Type := mkProvisioner {
  files : list string;
  state : gmap string (option Manifest);
  upstreamCache : gmap string Upstream;
  updatedUpstreamsFromEDS : gmap string (list Upstream)
}.

Definition set_state (f : gmap string (option Manifest) → gmap string (option Manifest))
    (p : xdsFileProvisioner) : xdsFileProvisioner :=
  mkProvisioner (files p) (f (state p)) (upstreamCache p)
                (updatedUpstreamsFromEDS p).

Definition set_updatedUpstreamsFromEDS
    (f : gmap string (list Upstream) → gmap string (list Upstream))
    (p : xdsFileProvisioner) : xdsFileProvisioner :=
  mkProvisioner (files p) (state p) (upstreamCache p)
                (f (updatedUpstreamsFromEDS p)).

(** [m[k]] on a Go map of slices: the nil slice when the key is missing. *)
Definition getSlice {A : Type} (m : gmap string (list A)) (k : string) : list A :=
  default [] (m !! k).

(** [m[k]] on a Go map of pointers: nil when the key is missing. *)
Definition getPtr {A : Type} (m : gmap string (option A)) (k : string) : option A :=
  default None (m !! k).

(* generateEvents ------------------------------------------------------- *)

Definition sizeOf (m : option Manifest) : nat :=
  match m with
  | Some m => Size m
  | None => 0
  end.

Definition eventsOf (m : option Manifest) (ty : EventType) : list Event :=
  match m with
  | Some m => Events m ty
  | None => []
  end.

(** The first statement of generateEvents: the three manifests
    (added, deleted, updated), each possibly nil. *)
Definition changes (rmo rm : option Manifest)
    : option Manifest * option Manifest * option Manifest :=
  match rmo, rm with
  | None, _ => (rm, None, None)
  | Some o, None => (None, rmo, None)
  | Some o, Some n =>
      let '(added, deleted, updated) := DiffFrom o n in
      (Some added, Some deleted, Some updated)
  end.

Definition generateEvents (p : xdsFileProvisioner) (filename : string)
    (rmo rm : option Manifest) : list Event * xdsFileProvisioner :=
  let '(added, deleted, updated) := changes rmo rm in
  let p := set_state <[filename := rm]> p in
  let count := 0 in
  let count := count + sizeOf added in
  let count := count + sizeOf deleted in
  let count := count + sizeOf updated in
  if decide (count = 0) then ([], p)
  else
    let events := [] in
    let events := events ++ eventsOf added EventAdd in
    let events := events ++ eventsOf deleted EventDelete in
    let events := events ++ eventsOf updated EventUpdate in
    (events, p).

(* generateEventsFromDiscoveryResponseV3 -------------------------------- *)

(** The inner loop [for j := 0; j < len(rm.Upstreams); j++] at a given
    [i]; [js] are the values of [j] still to run.  The body reads
    rm.Upstreams[i] and ups[i]: it does not mention [j].  The result is
    [found] and the updated rm.Upstreams. *)
Fixpoint searchLoop (js : list nat) (rmUpstreams ups : list Upstream) (i : nat)
    : result (bool * list Upstream) :=
  match js with
  | [] => Ok (false, rmUpstreams)
  | _ :: js =>
      r ←! index rmUpstreams i;
      u ←! index ups i;
      if decide (ups_Name r = ups_Name u)
      then Ok (true, <[i := u]> rmUpstreams)
      else searchLoop js rmUpstreams ups i
  end.

(** One round of the outer loop [for i := 0; i < len(ups); i++] on the
    state (rm.Upstreams, ups, slot). *)
Definition mergeStep (i : nat) (st : list Upstream * list Upstream * nat)
    : result (list Upstream * list Upstream * nat) :=
  let '(rmUpstreams, ups, slot) := st in
  '(found, rmUpstreams) ←! searchLoop (seq 0 (length rmUpstreams)) rmUpstreams ups i;
  if found then Ok (rmUpstreams, ups, slot)
  else
    u ←! index ups i;
    if decide (slot < length ups)
    then Ok (rmUpstreams, <[slot := u]> ups, S slot)
    else Panic.

Fixpoint mergeLoop (idxs : list nat) (st : list Upstream * list Upstream * nat)
    : result (list Upstream * list Upstream * nat) :=
  match idxs with
  | [] => Ok st
  | i :: idxs => st ←! mergeStep i st; mergeLoop idxs st
  end.

(** The ClusterLoadAssignment case of the switch: the merge of [ups] into
    rm.Upstreams.  Returns the new rm.Upstreams and [ups[:slot]]; the
    entries of [ups] from [slot] on, set to nil by the second loop, are
    the ones the reslice cuts off. *)
Definition mergeEDS (rmUpstreams ups : list Upstream)
    : result (list Upstream * list Upstream) :=
  '(rmUpstreams, ups, slot) ←! mergeLoop (seq 0 (length ups)) (rmUpstreams, ups, 0);
  Ok (rmUpstreams, take slot ups).

Section Provisioner.
Context `{!Adaptor} `{!Decoder}.

(** One round of [for _, res := range dr.GetResources()] on the state
    (rm, updatedUpstreams). *)
Definition processResource (res : Any) (st : Manifest * list Upstream)
    : result (Manifest * list Upstream) :=
  let '(rm, updatedUpstreams) := st in
  if decide (TypeUrl res = RouteConfigurationUrl) then
    Ok (mkManifest (Routes rm ++ processRouteConfigurationV3 res) (Upstreams rm),
        updatedUpstreams)
  else if decide (TypeUrl res = ClusterUrl) then
    Ok (mkManifest (Routes rm) (Upstreams rm ++ processClusterV3 res),
        updatedUpstreams)
  else if decide (TypeUrl res = ClusterLoadAssignmentUrl) then
    let ups := processClusterLoadAssignmentV3 res in
    '(rmUpstreams, ups) ←! mergeEDS (Upstreams rm) ups;
    Ok (mkManifest (Routes rm) rmUpstreams, updatedUpstreams ++ ups)
  else Ok (rm, updatedUpstreams).

Fixpoint processResources (rs : list Any) (st : Manifest * list Upstream)
    : result (Manifest * list Upstream) :=
  match rs with
  | [] => Ok st
  | res :: rs => st ←! processResource res st; processResources rs st
  end.

Definition updateEvents (l : list Upstream) : list Event :=
  mkEvent EventUpdate ∘ UpstreamObject <$> l.

Definition generateEventsFromDiscoveryResponseV3 (p : xdsFileProvisioner)
    (filename : string) (dr : DiscoveryResponse)
    : result (list Event * xdsFileProvisioner) :=
  '(rm, updatedUpstreams) ←! processResources (Resources dr) (emptyManifest, []);
  let '(evs, p) := generateEvents p filename (getPtr (state p) filename) (Some rm) in
  if decide (0 < length updatedUpstreams) then
    let updatedUpstreamsFromEDS := getSlice (updatedUpstreamsFromEDS p) filename in
    let evs := evs ++ updateEvents updatedUpstreams in
    let updatedUpstreamsFromEDS := updatedUpstreamsFromEDS ++ updatedUpstreams in
    Ok (evs, set_updatedUpstreamsFromEDS <[filename := updatedUpstreamsFromEDS]> p)
  else Ok (evs, p).

(* handleFileEvent ---------------------------------------------------- *)

(** proto.Clone followed by [newUps.Nodes = nil]. *)
Definition resetNodes (ups : Upstream) : Upstream :=
  mkUpstream (ups_Id ups) (ups_Name ups) (ups_Type ups) [].

(** The batch handed to the goroutine that sends on evChan, if any. *)
Definition dispatch (events : list Event) : option (list Event) :=
  if decide (0 < length events) then Some events else None.

(** [readFile] is ioutil.ReadFile at the time of the event: the bytes of
    the file, or [None] on error.  The result is the provisioner after
    the event and the batch sent on the channel, if one is. *)
Definition handleFileEvent (readFile : string → option (list Byte.byte))
    (p : xdsFileProvisioner) (ev : FsEvent)
    : result (xdsFileProvisioner * option (list Event)) :=
  if decide (ev_Op ev ≠ Remove) then
    match readFile (ev_Name ev) with
    | None => Ok (p, None)
    | Some data =>
        match Unmarshal data with
        | None => Ok (p, None)
        | Some dr =>
            '(events, p) ←! generateEventsFromDiscoveryResponseV3 p (ev_Name ev) dr;
            Ok (p, dispatch events)
        end
    end
  else
    match state p !! ev_Name ev with
    | Some rmo =>
        let '(events, p) := generateEvents p (ev_Name ev) rmo None in
        let events :=
          events ++ (mkEvent EventUpdate ∘ UpstreamObject ∘ resetNodes
                       <$> getSlice (updatedUpstreamsFromEDS p) (ev_Name ev)) in
        let p := set_updatedUpstreamsFromEDS (delete (ev_Name ev)) p in
        Ok (p, dispatch events)
    | None => Ok (p, dispatch [])
    end.
End Provisioner.

(* --------------------------------------------------------------------- *)
(* cmd/iptables                                                          *)
(* --------------------------------------------------------------------- *)

Module iptables.

(** config.Config of istio-iptables, the fields set by the flags. *)
Record Config : Type := mkConfig {
  InboundInterceptionMode : string;
  ProxyPort : string;
  InboundPortsInclude : string;
  OutboundPortsInclude : string;
  DryRun : bool
}.

(** A rule held by builder.IptablesBuilderImpl: the chain, the table and
    the parameters given to AppendRuleV4. *)
Record Rule : Type := mkRule {
  chain : string;
  table : string;
  params : list string
}.

#[global] Instance Rule_eq_dec : EqDecision Rule.
Proof. solve_decision. Defined.

(** The builder's list of IPv4 rules; AppendRuleV4 appends at its end. *)
Definition AppendRuleV4 (b : list Rule) (chain table : string)
    (params : list string) : list Rule :=
  b ++ [mkRule chain table params].

(** The chain names are constants of pkg/types. *)
Class ChainNames : Type := {
  RedirectChain : string;
  InboundChain : string;
  PreRoutingChain : string;
  OutputChain : string
}.

(** strings.Split(s, ","). *)
Fixpoint splitComma (s : string) : list string :=
  match s with
  | EmptyString => [EmptyString]
  | String c s =>
      if decide (c = ","%char) then EmptyString :: splitComma s
      else match splitComma s with
           | h :: t => String c h :: t
           | [] => [String c EmptyString]
           end
  end.

Fixpoint filterEmpty (strs : list string) : list string :=
  match strs with
  | [] => []
  | s :: strs =>
      if decide (s = EmptyString) then filterEmpty strs
      else s :: filterEmpty strs
  end.

Definition split (s : string) : list string :=
  if decide (s = EmptyString) then [] else filterEmpty (splitComma s).

Section Constructor.
Context `{!ChainNames}.

Definition insertInboundRules (cfg : Config) (b : list Rule) : list Rule :=
  if decide (InboundPortsInclude cfg = EmptyString) then b
  else
    let b := AppendRuleV4 b PreRoutingChain "nat" ["-p"; "tcp"; "-j"; InboundChain] in
    if decide (InboundPortsInclude cfg = "*") then
      let b := AppendRuleV4 b InboundChain "nat"
                 ["-p"; "tcp"; "--dport"; "22"; "-j"; "RETURN"] in
      AppendRuleV4 b InboundChain "nat" ["-p"; "tcp"; "-j"; RedirectChain]
    else
      foldl (λ b port,
               AppendRuleV4 b InboundChain "nat"
                 ["-p"; "tcp"; "--dport"; port; "-j"; RedirectChain])
            b (split (InboundPortsInclude cfg)).

Definition insertOutboundRules (cfg : Config) (b : list Rule) : list Rule :=
  foldl (λ b port,
           AppendRuleV4 b OutputChain "nat"
             ["-p"; "tcp"; "--dport"; port; "-j"; RedirectChain])
        b (split (OutboundPortsInclude cfg)).

(** The rules built by [run] before executeCommand, from the empty
    builder of NewIptablesBuilder. *)
Definition run (cfg : Config) : list Rule :=
  let b := AppendRuleV4 [] RedirectChain "nat"
             ["-p"; "tcp"; "-j"; "REDIRECT"; "--to-ports"; ProxyPort cfg] in
  let b := insertInboundRules cfg b in
  insertOutboundRules cfg b.

(** The rule that lets TCP traffic to port 22 leave the inbound chain. *)
Definition sshReturnRule : Rule :=
  mkRule InboundChain "nat" ["-p"; "tcp"; "--dport"; "22"; "-j"; "RETURN"].

(** The rule that redirects all TCP traffic of the inbound chain. *)
Definition redirectAllRule : Rule :=
  mkRule InboundChain "nat" ["-p"; "tcp"; "-j"; RedirectChain].

Definition jumpInboundRule : Rule :=
  mkRule PreRoutingChain "nat" ["-p"; "tcp"; "-j"; InboundChain].
End Constructor.

End iptables.

(* --------------------------------------------------------------------- *)
(* A small adaptor, decoder and chain names to run the code on           *)
(* --------------------------------------------------------------------- *)

Module Demo.

Definition nameOf (b : Byte.byte) : string :=
  String (ascii_of_byte b) EmptyString.

Definition node1 : Node := mkNode "10.0.0.1" 8080%Z 100%Z.
Definition node2 : Node := mkNode "10.0.0.2" 8080%Z 100%Z.

Definition route (n : string) : Route := mkRoute n n ["/" +:+ n] n.
Definition cluster (n : string) : Upstream := mkUpstream n n "roundrobin" [].
Definition endpoints (n : string) (nodes : list Node) : Upstream :=
  mkUpstream n n "roundrobin" nodes.

(** Every byte of the payload names one target resource; a load
    assignment gives each of its upstreams the node [node1]. *)
#[export] Instance adaptor : Adaptor := {|
  processRouteConfigurationV3 res := route ∘ nameOf <$> Value res;
  processClusterV3 res := cluster ∘ nameOf <$> Value res;
  processClusterLoadAssignmentV3 res :=
    (λ b, endpoints (nameOf b) [node1]) <$> Value res
|}.

Definition kindUrl (b : Byte.byte) : string :=
  match b with
  | Byte.x52 => RouteConfigurationUrl
  | Byte.x43 => ClusterUrl
  | Byte.x45 => ClusterLoadAssignmentUrl
  | _ => "type.googleapis.com/envoy.config.listener.v3.Listener"
  end.

(** A file is a sequence of two-byte records, a kind (R, C or E) and a
    name; a file of odd length does not decode. *)
Fixpoint records (data : list Byte.byte) : option (list Any) :=
  match data with
  | [] => Some []
  | k :: n :: data => cons (mkAny (kindUrl k) [n]) <$> records data
  | [_] => None
  end.

#[export] Instance decoder : Decoder := {|
  Unmarshal data := mkDiscoveryResponse <$> records data
|}.

#[export] Instance chains : iptables.ChainNames := {|
  iptables.RedirectChain := "APISIX_REDIRECT";
  iptables.InboundChain := "APISIX_INBOUND_REDIRECT";
  iptables.PreRoutingChain := "PREROUTING";
  iptables.OutputChain := "OUTPUT"
|}.

Definition Cluster (n : string) : Any :=
  mkAny ClusterUrl (String.list_byte_of_string n).
Definition ClusterLoadAssignment (n : string) : Any :=
  mkAny ClusterLoadAssignmentUrl (String.list_byte_of_string n).
Definition RouteConfiguration (n : string) : Any :=
  mkAny RouteConfigurationUrl (String.list_byte_of_string n).

Definition file : string := "/etc/xds/a.json".

Definition emptyProvisioner : xdsFileProvisioner :=
  mkProvisioner [file] ∅ ∅ ∅.

(** The provisioner after a pass over [file] holding the load assignment
    of [x] alone: an empty manifest and [x] recorded as EDS-only. *)
Definition recordedX : xdsFileProvisioner :=
  mkProvisioner [file] {[file := Some emptyManifest]} ∅
                {[file := [endpoints "x" [node1]]]}.

(** A provisioner whose manifest for [file] is the cluster [b]. *)
Definition withB : xdsFileProvisioner :=
  mkProvisioner [file] {[file := Some (mkManifest [] [cluster "b"])]} ∅ ∅.

(** A file system whose every file has the given content. *)
Definition holding (content : string) : string → option (list Byte.byte) :=
  λ _, Some (String.list_byte_of_string content).

(** A file system whose files cannot be read. *)
Definition unreadable : string → option (list Byte.byte) := λ _, None.

Definition wildcard : iptables.Config :=
  iptables.mkConfig "REDIRECT" "9080" "*" "" false.

End Demo.

(* --------------------------------------------------------------------- *)
(* Vocabulary of the statements                                          *)
(* --------------------------------------------------------------------- *)

(** What one run of the inner loop amounts to when it runs at least once:
    it looks at position [i] of both lists, whatever [j] is. *)
Definition compareAt (rmUpstreams ups : list Upstream) (i : nat)
    : result (bool * list Upstream) :=
  match rmUpstreams !! i, ups !! i with
  | Some r, Some u =>
      if decide (ups_Name r = ups_Name u)
      then Ok (true, <[i := u]> rmUpstreams)
      else Ok (false, rmUpstreams)
  | _, _ => Panic
  end.

(** The merge as the specification words it, to compare the loop with:
    for every load-assignment-derived upstream, search the manifest's
    upstream list for an entry with the same Name; if one is found,
    replace it in place, otherwise append the upstream to the EDS-only
    collection.  The result is the manifest's list and the collection. *)
Definition mergeByName (rmUpstreams ups : list Upstream)
    : list Upstream * list Upstream :=
  foldl (λ '(rmUpstreams, edsOnly) u,
           match list_find (λ r, ups_Name r = ups_Name u) rmUpstreams with
           | Some (j, _) => (<[j := u]> rmUpstreams, edsOnly)
           | None => (rmUpstreams, edsOnly ++ [u])
           end)
        (rmUpstreams, []) ups.

(** The resources of a manifest: its routes, then its upstreams. *)
Definition resources (m : Manifest) : list Resource :=
  (RouteObject <$> Routes m) ++ (UpstreamObject <$> Upstreams m).

(** The invariant of a manifest: no two routes and no two upstreams share
    a Name. *)
Definition manifest_wf (m : Manifest) : Prop :=
  NoDup (route_Name <$> Routes m) ∧ NoDup (ups_Name <$> Upstreams m).

(** The diff of generateEvents has no added, deleted or updated resource. *)
Definition emptyDiff (rmo rm : option Manifest) : Prop :=
  sizeOf (changes rmo rm).1.1 + sizeOf (changes rmo rm).1.2
    + sizeOf (changes rmo rm).2 = 0.

(** The events of a given type in a batch, in the order of the batch. *)
Definition ofType (ty : EventType) (evs : list Event) : list Event :=
  List.filter (λ e, bool_decide (Type_ e = ty)) evs.

(** The place of an event type in a batch. *)
Definition rank (ty : EventType) : nat :=
  match ty with
  | EventAdd => 0
  | EventDelete => 1
  | EventUpdate => 2
  end.

Definition rankLe (e1 e2 : Event) : Prop := rank (Type_ e1) ≤ rank (Type_ e2).

(** Every event of type [ty1] of the batch comes before every event of
    type [ty2]. *)
Definition precedes (ty1 ty2 : EventType) (evs : list Event) : Prop :=
  ∀ i j e1 e2,
    evs !! i = Some e1 → evs !! j = Some e2 →
    Type_ e1 = ty1 → Type_ e2 = ty2 → i < j.

(* --------------------------------------------------------------------- *)
(* NewXDSProvisioner, handleInitialFileEvents and Run                    *)
(* --------------------------------------------------------------------- *)

Module config.
(** config.Config, the fields NewXDSProvisioner reads. *)
Record Config : Type := mkConfig {
  XDSWatchFiles : list string;
  LogLevel : string;
  LogOutput : string
}.
End config.

(** The errors that NewXDSProvisioner and Run return. *)
Inductive error : Type :=
  | ErrNoWatchFiles
  | ErrNewWatcher
  | ErrNewLogger
  | ErrNewAdaptor
  | ErrStat (path : string)
  | ErrWalk (path : string)
  | ErrWatcherAdd (path : string).

(** Whether fsnotify.NewWatcher, log.NewLogger and xdsv3.NewAdaptor
    succeed. *)
Record Constructors : Type := mkConstructors {
  newWatcherOk : bool;
  newLoggerOk : bool;
  newAdaptorOk : bool
}.

Definition NewXDSProvisioner (env : Constructors) (cfg : config.Config)
    : error + xdsFileProvisioner :=
  if decide (length (config.XDSWatchFiles cfg) = 0) then inl ErrNoWatchFiles
  else if negb (newWatcherOk env) then inl ErrNewWatcher
  else if negb (newLoggerOk env) then inl ErrNewLogger
  else if negb (newAdaptorOk env) then inl ErrNewAdaptor
  else inr (mkProvisioner (config.XDSWatchFiles cfg) ∅ ∅ ∅).

(** os.FileInfo, as far as the provisioner looks into it. *)
Record FileInfo : Type := mkFileInfo {
  IsDir : bool
}.

(** The file system and the watcher at start-up.  [Stat] is os.Stat and
    [ReadFile] ioutil.ReadFile, [None] on error.  [WalkVisits root] is the
    sequence of calls that filepath.Walk makes to its callback as long as
    the callback returns nil: the path and its info, or [None] where Walk
    reports an error for the path.  [WatcherAdd] tells whether watcher.Add
    succeeds. *)
Record FileSystem : Type := mkFileSystem {
  Stat : string → option FileInfo;
  WalkVisits : string → list (string * option FileInfo);
  ReadFile : string → option (list Byte.byte);
  WatcherAdd : string → bool
}.

(** filepath.Walk with the callback of handleInitialFileEvents, on the
    visits still to come: an error stops the walk, a directory is passed
    over and any other path is appended to [files]. *)
Fixpoint walkFiles (visits : list (string * option FileInfo)) (files : list string)
    : option (list string) :=
  match visits with
  | [] => Some files
  | (_, None) :: _ => None
  | (path, Some info) :: visits =>
      if IsDir info then walkFiles visits files
      else walkFiles visits (files ++ [path])
  end.

(** The first loop of handleInitialFileEvents, on the configured paths
    still to come. *)
Fixpoint collectFiles (fs : FileSystem) (paths : list string) (files : list string)
    : error + list string :=
  match paths with
  | [] => inr files
  | file :: paths =>
      match Stat fs file with
      | None => inl (ErrStat file)
      | Some info =>
          if negb (IsDir info) then collectFiles fs paths (files ++ [file])
          else
            match walkFiles (WalkVisits fs file) files with
            | None => inl (ErrWalk file)
            | Some files => collectFiles fs paths files
            end
      end
  end.

(** What a function of the provisioner leaves behind: the error it
    returns, if any, the provisioner and the batches handed to the
    sending goroutines so far, oldest first. *)
Record Outcome : Type := mkOutcome {
  out_err : option error;
  out_p : xdsFileProvisioner;
  out_sent : list (list Event)
}.

Definition sendBatch (batch : option (list Event)) (sent : list (list Event))
    : list (list Event) :=
  match batch with
  | Some events => sent ++ [events]
  | None => sent
  end.

(** A message that the select of Run receives: the stop signal, an error
    of the watcher, or an event of the watcher together with the content
    of the files at the time the event is handled. *)
Inductive Msg : Type :=
  | MsgStop
  | MsgError
  | MsgEvent (readFile : string → option (list Byte.byte)) (ev : FsEvent).

Section Run.
Context {A : Adaptor} {D : Decoder}.

(** The second loop of handleInitialFileEvents: a write event per file. *)
Fixpoint handleFiles (readFile : string → option (list Byte.byte))
    (names : list string) (p : xdsFileProvisioner) (sent : list (list Event))
    : result (xdsFileProvisioner * list (list Event)) :=
  match names with
  | [] => Ok (p, sent)
  | file :: names =>
      '(p, batch) ←! handleFileEvent readFile p (mkFsEvent file Write);
      handleFiles readFile names p (sendBatch batch sent)
  end.

Definition handleInitialFileEvents (fs : FileSystem) (p : xdsFileProvisioner)
    : result Outcome :=
  match collectFiles fs (files p) [] with
  | inl err => Ok (mkOutcome (Some err) p [])
  | inr names =>
      '(p, sent) ←! handleFiles (ReadFile fs) names p [];
      Ok (mkOutcome None p sent)
  end.

(** The loop [for _, file := range p.files] of Run: the first path that
    the watcher refuses. *)
Fixpoint addWatches (fs : FileSystem) (paths : list string) : option error :=
  match paths with
  | [] => None
  | file :: paths =>
      if WatcherAdd fs file then addWatches fs paths
      else Some (ErrWatcherAdd file)
  end.

(** The switch of Run on ev.Op: the events that reach handleFileEvent. *)
Definition handled (op : Op) : bool :=
  bool_decide (op = Create ∨ op = Write ∨ op = Remove).

(** The [for { select ... }] of Run on the messages still to come.  The
    last component tells whether Run has returned; it has not when the
    messages run out before the stop signal. *)
Fixpoint watchLoop (msgs : list Msg) (p : xdsFileProvisioner)
    (sent : list (list Event))
    : result (xdsFileProvisioner * list (list Event) * bool) :=
  match msgs with
  | [] => Ok (p, sent, false)
  | MsgStop :: _ => Ok (p, sent, true)
  | MsgError :: msgs => watchLoop msgs p sent
  | MsgEvent readFile ev :: msgs =>
      if handled (ev_Op ev) then
        '(p, batch) ←! handleFileEvent readFile p ev;
        watchLoop msgs p (sendBatch batch sent)
      else watchLoop msgs p sent
  end.

(** Run: the outcome and whether Run has returned. *)
Definition Run (fs : FileSystem) (p : xdsFileProvisioner) (msgs : list Msg)
    : result (Outcome * bool) :=
  o ←! handleInitialFileEvents fs p;
  match out_err o with
  | Some err => Ok (o, true)
  | None =>
      match addWatches fs (files (out_p o)) with
      | Some err => Ok (mkOutcome (Some err) (out_p o) (out_sent o), true)
      | None =>
          '(p, sent, returned) ←! watchLoop msgs (out_p o) (out_sent o);
          Ok (mkOutcome None p sent, returned)
      end
  end.
End Run.

(* --------------------------------------------------------------------- *)
(* executeCommand                                                        *)
(* --------------------------------------------------------------------- *)

(** One round of the loop of executeCommand: the program and the
    arguments given to RunOrFail.  [cmd[0]] panics on an empty command. *)
Definition runCommand (cmd : list string) : result (string * list string) :=
  if decide (1 < length cmd) then
    c ←! index cmd 0;
    Ok (c, drop 1 cmd)
  else
    c ←! index cmd 0;
    Ok (c, []).

(** executeCommand on the commands that BuildV4 returns: the calls of
    RunOrFail, in order. *)
Fixpoint executeCommand (commands : list (list string))
    : result (list (string * list string)) :=
  match commands with
  | [] => Ok []
  | cmd :: commands =>
      call ←! runCommand cmd;
      calls ←! executeCommand commands;
      Ok (call :: calls)
  end.

(* --------------------------------------------------------------------- *)
(* Vocabulary of the further statements                                  *)
(* --------------------------------------------------------------------- *)

(** The merge as the loop performs it where it does not panic: position
    by position, the load-assignment-derived upstream takes the place of
    the manifest's entry when their Names agree and is kept as EDS-only
    otherwise. *)
Fixpoint mergePairs (rmUpstreams ups : list Upstream)
    : list Upstream * list Upstream :=
  match rmUpstreams, ups with
  | r :: rmUpstreams, u :: ups =>
      let '(merged, edsOnly) := mergePairs rmUpstreams ups in
      if decide (ups_Name r = ups_Name u) then (u :: merged, edsOnly)
      else (r :: merged, u :: edsOnly)
  | _, _ => (rmUpstreams, [])
  end.

Definition isRoute (res : Any) : bool :=
  bool_decide (TypeUrl res = RouteConfigurationUrl).
Definition isCluster (res : Any) : bool :=
  bool_decide (TypeUrl res = ClusterUrl).
Definition isLoadAssignment (res : Any) : bool :=
  bool_decide (TypeUrl res = ClusterLoadAssignmentUrl).

(** A resource of one of the three kinds of the switch. *)
Definition recognized (res : Any) : bool :=
  isRoute res || isCluster res || isLoadAssignment res.

(** Every recording of the EDS table is non-empty and belongs to a file
    name that has an entry in the State Table. *)
Definition recorded_wf (p : xdsFileProvisioner) : Prop :=
  ∀ filename l,
    updatedUpstreamsFromEDS p !! filename = Some l →
    l ≠ [] ∧ is_Some (state p !! filename).

(** What every pass keeps: the list of watched files, the well-formedness
    of the EDS table, and that no empty batch is sent. *)
Definition kept (watched : list string) (p : xdsFileProvisioner)
    (sent : list (list Event)) : Prop :=
  files p = watched ∧ recorded_wf p ∧ Forall (λ batch, batch ≠ []) sent.

(** A message that the loop of Run acts on. *)
Definition relevant (m : Msg) : bool :=
  match m with
  | MsgStop => true
  | MsgError => false
  | MsgEvent _ ev => handled (ev_Op ev)
  end.



Fixpoint hasComma (s : string) : bool :=
  match s with
  | EmptyString => false
  | String c s => bool_decide (c = ","%char) || hasComma s
  end.

(** A port as it can stand in a comma separated list: not empty and
    without a comma. *)
Definition portLike (s : string) : Prop :=
  s ≠ EmptyString ∧ hasComma s = false.

Section PortRules.
Context `{!iptables.ChainNames}.

Definition proxyRule (cfg : iptables.Config) : iptables.Rule :=
  iptables.mkRule iptables.RedirectChain "nat"
    ["-p"; "tcp"; "-j"; "REDIRECT"; "--to-ports"; iptables.ProxyPort cfg].

Definition inboundPortRule (port : string) : iptables.Rule :=
  iptables.mkRule iptables.InboundChain "nat"
    ["-p"; "tcp"; "--dport"; port; "-j"; iptables.RedirectChain].

Definition outboundPortRule (port : string) : iptables.Rule :=
  iptables.mkRule iptables.OutputChain "nat"
    ["-p"; "tcp"; "--dport"; port; "-j"; iptables.RedirectChain].
End PortRules.

(** A rule of the nat table on TCP traffic. *)
Definition natTcp (r : iptables.Rule) : Prop :=
  iptables.table r = "nat" ∧ take 2 (iptables.params r) = ["-p"; "tcp"].

(* --------------------------------------------------------------------- *)
(* A second adaptor and a file system to run the code on                 *)
(* --------------------------------------------------------------------- *)

Module Samples.

Definition payloadName (res : Any) : string :=
  String.string_of_list_byte (Value res).

(** An adaptor whose every resource yields one target resource, named by
    the whole payload. *)
Definition single : Adaptor := {|
  processRouteConfigurationV3 res := [Demo.route (payloadName res)];
  processClusterV3 res := [Demo.cluster (payloadName res)];
  processClusterLoadAssignmentV3 res :=
    [Demo.endpoints (payloadName res) [Demo.node1]]
|}.

(** A directory [/etc/xds] with the files [a.json] and [b.json]; every
    file holds the cluster [a]. *)
Definition twoFiles : FileSystem := {|
  Stat path := if decide (path = "/etc/xds") then Some (mkFileInfo true) else None;
  WalkVisits path :=
    [("/etc/xds", Some (mkFileInfo true));
     ("/etc/xds/a.json", Some (mkFileInfo false));
     ("/etc/xds/b.json", Some (mkFileInfo false))];
  ReadFile := Demo.holding "Ca";
  WatcherAdd path := true
|}.

(** The same directory, with an entry that the walk cannot read. *)
Definition brokenWalk : FileSystem := {|
  Stat path := if decide (path = "/etc/xds") then Some (mkFileInfo true) else None;
  WalkVisits path :=
    [("/etc/xds", Some (mkFileInfo true));
     ("/etc/xds/a.json", Some (mkFileInfo false));
     ("/etc/xds/b.json", None)];
  ReadFile := Demo.holding "Ca";
  WatcherAdd path := true
|}.

Definition watchingDir : xdsFileProvisioner :=
  mkProvisioner ["/etc/xds"] ∅ ∅ ∅.

End Samples.

(* ===================================================================== *)
(* Properties                                                            *)
(* ===================================================================== *)

(* --------------------------------------------------------------------- *)
(* The merge loop                                                        *)
(* --------------------------------------------------------------------- *)

Lemma searchLoop_cons j js rmUpstreams ups i :
  searchLoop (j :: js) rmUpstreams ups i = compareAt rmUpstreams ups i.
Proof.
  revert j. induction js as [|j' js IH]; intros j.
  - unfold compareAt, index; simpl; unfold index.
    destruct (rmUpstreams !! i); simpl; [|done].
    destruct (ups !! i); simpl; [|done].
    by case_decide.
  - specialize (IH j'). unfold compareAt in *.
    change (searchLoop (j :: j' :: js) rmUpstreams ups i) with
      (r ←! index rmUpstreams i; u ←! index ups i;
       if decide (ups_Name r = ups_Name u)
       then Ok (true, <[i := u]> rmUpstreams)
       else searchLoop (j' :: js) rmUpstreams ups i).
    rewrite IH. unfold index.
    destruct (rmUpstreams !! i); simpl; [|done].
    destruct (ups !! i); simpl; [|done].
    by case_decide.
Qed.

Lemma searchLoop_seq rmUpstreams ups i :
  rmUpstreams ≠ [] →
  searchLoop (seq 0 (length rmUpstreams)) rmUpstreams ups i
  = compareAt rmUpstreams ups i.
Proof.
  intros Hne. destruct rmUpstreams as [|r rest]; [done|].
  simpl length. simpl seq. apply searchLoop_cons.
Qed.

Lemma compareAt_length rmUpstreams ups i found rmUpstreams' :
  compareAt rmUpstreams ups i = Ok (found, rmUpstreams') →
  length rmUpstreams' = length rmUpstreams ∧ i < length rmUpstreams.
Proof.
  unfold compareAt. destruct (rmUpstreams !! i) eqn:Hr; [|done].
  apply lookup_lt_Some in Hr.
  destruct (ups !! i); [|done].
  case_decide; intros [= <- <-]; by rewrite ?length_insert.
Qed.

Lemma compareAt_out_of_range rmUpstreams ups i :
  length rmUpstreams ≤ i → compareAt rmUpstreams ups i = Panic.
Proof.
  intros Hle. unfold compareAt. by rewrite (lookup_ge_None_2 _ _ Hle).
Qed.

Lemma compareAt_in_range rmUpstreams ups i :
  i < length rmUpstreams → i < length ups →
  ∃ found rmUpstreams', compareAt rmUpstreams ups i = Ok (found, rmUpstreams').
Proof.
  intros [r Hr]%lookup_lt_is_Some [u Hu]%lookup_lt_is_Some.
  unfold compareAt. rewrite Hr, Hu. case_decide; eauto.
Qed.

(** With no cluster-derived upstream the inner loop does not run, and
    every round of the outer loop keeps its upstream. *)
Lemma mergeStep_nil ups slot i u :
  ups !! i = Some u → slot < length ups →
  mergeStep i ([], ups, slot) = Ok ([], <[slot := u]> ups, S slot).
Proof.
  intros Hu Hslot. unfold mergeStep, index; simpl. rewrite Hu; simpl.
  by rewrite decide_True.
Qed.

Lemma mergeStep_cons rmUpstreams ups slot i :
  rmUpstreams ≠ [] →
  mergeStep i (rmUpstreams, ups, slot) =
    ('(found, rmUpstreams) ←! compareAt rmUpstreams ups i;
     if found then Ok (rmUpstreams, ups, slot)
     else
       u ←! index ups i;
       if decide (slot < length ups)
       then Ok (rmUpstreams, <[slot := u]> ups, S slot)
       else Panic).
Proof. intros Hne. unfold mergeStep. by rewrite searchLoop_seq. Qed.

(** A round of the outer loop inside both lists succeeds and keeps the
    lengths of both. *)
Lemma mergeStep_ok rmUpstreams ups slot i :
  (rmUpstreams = [] ∨ i < length rmUpstreams) →
  i < length ups → slot ≤ i →
  ∃ rmUpstreams' ups' slot',
    mergeStep i (rmUpstreams, ups, slot) = Ok (rmUpstreams', ups', slot')
    ∧ length rmUpstreams' = length rmUpstreams
    ∧ length ups' = length ups
    ∧ slot' ≤ S i.
Proof.
  intros Hrm Hi Hslot.
  destruct (lookup_lt_is_Some_2 ups i Hi) as [u Hu].
  destruct (decide (rmUpstreams = [])) as [->|Hne].
  - rewrite (mergeStep_nil _ _ _ u) by (done || lia).
    eexists _, _, _. split; [done|]. rewrite length_insert. split_and!; lia || done.
  - destruct Hrm as [?|Hlt]; [done|].
    rewrite mergeStep_cons by done.
    destruct (compareAt_in_range _ _ _ Hlt Hi) as (found & rm' & Hc).
    rewrite Hc; simpl. apply compareAt_length in Hc as [Hlen _].
    destruct found.
    + eexists _, _, _. split; [done|]. split_and!; lia || done.
    + unfold index. rewrite Hu; simpl. rewrite decide_True by lia.
      eexists _, _, _. split; [done|]. rewrite length_insert. split_and!; lia || done.
Qed.

(** A round of the outer loop past the end of a non-empty rm.Upstreams
    panics: the first round of the inner loop reads rm.Upstreams[i]. *)
Lemma mergeStep_panic rmUpstreams ups slot i :
  rmUpstreams ≠ [] → length rmUpstreams ≤ i →
  mergeStep i (rmUpstreams, ups, slot) = Panic.
Proof.
  intros Hne Hle. rewrite mergeStep_cons by done.
  by rewrite compareAt_out_of_range.
Qed.

Lemma mergeLoop_ok n : ∀ a rmUpstreams ups slot,
  (rmUpstreams = [] ∨ a + n ≤ length rmUpstreams) →
  a + n ≤ length ups → slot ≤ a →
  ∃ rmUpstreams' ups' slot',
    mergeLoop (seq a n) (rmUpstreams, ups, slot) = Ok (rmUpstreams', ups', slot')
    ∧ length rmUpstreams' = length rmUpstreams
    ∧ length ups' = length ups
    ∧ slot' ≤ a + n.
Proof.
  induction n as [|n IH]; intros a rm ups slot Hrm Hups Hslot.
  - eexists _, _, _. split; [done|]. split_and!; lia || done.
  - destruct (mergeStep_ok rm ups slot a) as (rm1 & ups1 & slot1 & Hs & H1 & H2 & H3);
      [destruct Hrm; [by left | right; lia] | lia | lia |].
    cbn [seq mergeLoop]. rewrite Hs; cbn [rbind].
    destruct (IH (S a) rm1 ups1 slot1) as (rm2 & ups2 & slot2 & Hl & H4 & H5 & H6).
    + destruct Hrm as [->|?]; [left; by destruct rm1 | right; lia].
    + lia.
    + lia.
    + eexists _, _, _. split; [done|]. split_and!; lia.
Qed.

Lemma mergeLoop_panic n : ∀ a rmUpstreams ups slot,
  rmUpstreams ≠ [] → a ≤ length rmUpstreams → length rmUpstreams < a + n →
  a + n ≤ length ups → slot ≤ a →
  mergeLoop (seq a n) (rmUpstreams, ups, slot) = Panic.
Proof.
  induction n as [|n IH]; intros a rm ups slot Hne Ha Hlt Hups Hslot; [lia|].
  cbn [seq mergeLoop]. destruct (decide (length rm ≤ a)) as [Hle|Hgt].
  - by rewrite mergeStep_panic.
  - destruct (mergeStep_ok rm ups slot a) as (rm1 & ups1 & slot1 & Hs & H1 & H2 & H3);
      [right; lia | lia | lia |].
    rewrite Hs; cbn [rbind]. apply IH; try lia.
    intros ->. destruct rm; simpl in *; [done|lia].
Qed.

(** The merge panics exactly when there is a cluster-derived upstream and
    the load assignment yields more upstreams than rm.Upstreams holds. *)
Lemma mergeEDS_panic_iff rmUpstreams ups :
  mergeEDS rmUpstreams ups = Panic
  ↔ rmUpstreams ≠ [] ∧ length rmUpstreams < length ups.
Proof.
  unfold mergeEDS. split.
  - intros Hp.
    destruct (decide (rmUpstreams = [])) as [->|Hne].
    + destruct (mergeLoop_ok (length ups) 0 [] ups 0) as (?&?&?&Hl&_);
        [by left | simpl; lia | lia |].
      by rewrite Hl in Hp.
    + split; [done|].
      destruct (decide (length rmUpstreams < length ups)) as [|Hge]; [done|].
      destruct (mergeLoop_ok (length ups) 0 rmUpstreams ups 0) as (?&?&?&Hl&_);
        [right; simpl; lia | simpl; lia | lia |].
      by rewrite Hl in Hp.
  - intros [Hne Hlt].
    by rewrite (mergeLoop_panic (length ups) 0) by (done || simpl; lia).
Qed.

(** A load assignment that yields one upstream is compared with the first
    cluster-derived upstream only. *)
Lemma mergeEDS_singleton r rest u :
  mergeEDS (r :: rest) [u] =
    if decide (ups_Name r = ups_Name u) then Ok (u :: rest, [])
    else Ok (r :: rest, [u]).
Proof.
  unfold mergeEDS. cbn [length seq mergeLoop].
  rewrite mergeStep_cons by done. unfold compareAt; simpl.
  by case_decide.
Qed.

Lemma mergeEDS_nil_singleton u : mergeEDS [] [u] = Ok ([], [u]).
Proof. reflexivity. Qed.

(** A load assignment that yields at most one upstream never makes the
    merge panic. *)
Lemma mergeEDS_short_total rmUpstreams ups :
  length ups ≤ 1 → mergeEDS rmUpstreams ups ≠ Panic.
Proof.
  intros Hlen [Hne Hlt]%mergeEDS_panic_iff.
  destruct rmUpstreams; simpl in *; [done|lia].
Qed.

Section MergeExamples.
Import Demo.

(** The batch of the spec's example: the load assignment of the first
    cluster of the batch is merged into it. *)
Example merge_first_cluster :
  processResources [Cluster "a"; ClusterLoadAssignment "a"] (emptyManifest, [])
  = Ok (mkManifest [] [endpoints "a" [node1]], []).
Proof. reflexivity. Qed.

(** C1.  The code at the batch Cluster(a), Cluster(b),
    ClusterLoadAssignment(b): the upstream [b] of the load assignment has
    the Name of the second entry of the manifest's upstream list, yet the
    entry keeps its cluster-derived content (no nodes) and the upstream
    is handed over as an EDS-only update.  The loop compares position
    [i] of both lists, it does not search the manifest's list; the search
    by Name replaces the second entry and leaves no EDS-only upstream. *)
Theorem C1_merge_compares_same_position :
  processResources
    [Cluster "a"; Cluster "b"; ClusterLoadAssignment "b"] (emptyManifest, [])
  = Ok (mkManifest [] [cluster "a"; cluster "b"], [endpoints "b" [node1]])
  ∧ mergeEDS [cluster "a"; cluster "b"] [endpoints "b" [node1]]
    = Ok ([cluster "a"; cluster "b"], [endpoints "b" [node1]])
  ∧ mergeByName [cluster "a"; cluster "b"] [endpoints "b" [node1]]
    = ([cluster "a"; endpoints "b" [node1]], []).
Proof. split_and!; reflexivity. Qed.

(** C3.  The code at the batch Cluster(a), ClusterLoadAssignment(b, c):
    rm.Upstreams has one entry and the load assignment yields two
    upstreams; the round [i = 1] of the outer loop reads rm.Upstreams[1]
    and the merge panics. *)
Theorem C3_merge_index_out_of_range :
  mergeEDS [cluster "a"] [endpoints "b" [node1]; endpoints "c" [node1]] = Panic
  ∧ processResources
      [Cluster "a"; ClusterLoadAssignment "bc"] (emptyManifest, [])
    = Panic.
Proof. split; reflexivity. Qed.
End MergeExamples.

(* --------------------------------------------------------------------- *)
(* generateEvents                                                        *)
(* --------------------------------------------------------------------- *)

Lemma Events_resources m ty : Events m ty = mkEvent ty <$> resources m.
Proof.
  unfold Events, resources. by rewrite fmap_app, <-!list_fmap_compose.
Qed.

Lemma Size_resources m : Size m = length (resources m).
Proof. unfold Size, resources. by rewrite length_app, !length_fmap. Qed.

Lemma eventsOf_length m ty : length (eventsOf m ty) = sizeOf m.
Proof.
  destruct m as [m|]; [|done]. simpl.
  by rewrite Events_resources, length_fmap, Size_resources.
Qed.

Lemma eventsOf_size_0 m ty : sizeOf m = 0 → eventsOf m ty = [].
Proof. rewrite <-(eventsOf_length m ty). apply nil_length_inv. Qed.

Lemma eventsOf_type m ty : Forall (λ e, Type_ e = ty) (eventsOf m ty).
Proof.
  destruct m as [m|]; [|by constructor]. simpl.
  rewrite Events_resources. by apply Forall_fmap, Forall_true.
Qed.

(** The events of generateEvents are those of the three manifests, in the
    order added, deleted, updated; this covers the early return, where
    all three are empty. *)
Lemma generateEvents_events p filename rmo rm :
  (generateEvents p filename rmo rm).1 =
    eventsOf (changes rmo rm).1.1 EventAdd
    ++ eventsOf (changes rmo rm).1.2 EventDelete
    ++ eventsOf (changes rmo rm).2 EventUpdate.
Proof.
  unfold generateEvents.
  destruct (changes rmo rm) as [[added deleted] updated]; simpl.
  case_decide as Hc; simpl; [|by rewrite app_assoc].
  by rewrite !eventsOf_size_0 by lia.
Qed.

Lemma generateEvents_provisioner p filename rmo rm :
  (generateEvents p filename rmo rm).2 = set_state <[filename := rm]> p.
Proof.
  unfold generateEvents.
  destruct (changes rmo rm) as [[added deleted] updated].
  by case_decide.
Qed.

(** With no prior manifest, generateEvents returns one Add event per
    resource of the new manifest, in the manifest's order, and nothing
    else; with a prior manifest and no new one, it returns one Delete
    event per resource of the prior manifest and nothing else. *)
Lemma generateEvents_boundary_cases p filename (old new : Manifest) :
  (generateEvents p filename None (Some new)).1
    = mkEvent EventAdd <$> resources new
  ∧ (generateEvents p filename (Some old) None).1
    = mkEvent EventDelete <$> resources old.
Proof.
  rewrite !generateEvents_events. simpl.
  by rewrite !Events_resources, !app_nil_r.
Qed.

(** C6.  After generateEvents the State Table entry of the file is the new
    manifest, whatever the old and the new manifest are (present or nil)
    and whatever events come out; the other entries and the EDS table are
    as before. *)
Theorem C6_state_replaced p filename (rmo rm : option Manifest) :
  state (generateEvents p filename rmo rm).2 !! filename = Some rm
  ∧ (∀ other, other ≠ filename →
       state (generateEvents p filename rmo rm).2 !! other = state p !! other)
  ∧ updatedUpstreamsFromEDS (generateEvents p filename rmo rm).2
    = updatedUpstreamsFromEDS p.
Proof.
  rewrite generateEvents_provisioner. simpl. split_and!.
  - by rewrite lookup_insert_eq.
  - intros other Hne. by rewrite lookup_insert_ne.
  - done.
Qed.

(* --------------------------------------------------------------------- *)
(* The order of a batch                                                  *)
(* --------------------------------------------------------------------- *)

Lemma rank_le_update ty : rank ty ≤ rank EventUpdate.
Proof. destruct ty; simpl; lia. Qed.

Lemma sorted_same_type ty (l : list Event) :
  Forall (λ e, Type_ e = ty) l → StronglySorted rankLe l.
Proof.
  induction 1 as [|e l He Hl IH]; constructor; [done|].
  eapply Forall_impl; [exact Hl|]. intros e' He'. unfold rankLe.
  by rewrite He, He'.
Qed.

Lemma sorted_app_updates (l : list Event) (us : list Event) :
  StronglySorted rankLe l → Forall (λ e, Type_ e = EventUpdate) us →
  StronglySorted rankLe (l ++ us).
Proof.
  intros Hl Hus. apply StronglySorted_app. split_and!.
  - intros e1 e2 _ He2. rewrite Forall_forall in Hus. unfold rankLe.
    rewrite (Hus e2 He2). apply rank_le_update.
  - done.
  - by eapply sorted_same_type.
Qed.

Lemma generateEvents_sorted p filename rmo rm :
  StronglySorted rankLe (generateEvents p filename rmo rm).1.
Proof.
  rewrite generateEvents_events.
  pose proof (eventsOf_type (changes rmo rm).1.1 EventAdd) as Ha.
  pose proof (eventsOf_type (changes rmo rm).1.2 EventDelete) as Hd.
  pose proof (eventsOf_type (changes rmo rm).2 EventUpdate) as Hu.
  rewrite app_assoc. apply sorted_app_updates; [|done].
  apply StronglySorted_app. split_and!; [|by eapply sorted_same_type..].
  intros e1 e2 He1 He2. rewrite Forall_forall in Ha, Hd. unfold rankLe.
  rewrite (Ha e1 He1), (Hd e2 He2). simpl. lia.
Qed.

Lemma sorted_lookup_lt (l : list Event) i j e1 e2 :
  StronglySorted rankLe l → i < j →
  l !! i = Some e1 → l !! j = Some e2 → rankLe e1 e2.
Proof.
  intros Hs. revert i j. induction Hs as [|x l Hs IH Hx]; intros i j Hij H1 H2.
  - done.
  - destruct j as [|j]; [lia|]. destruct i as [|i]; simpl in *.
    + injection H1 as <-. rewrite Forall_forall in Hx.
      apply Hx. by eapply list_elem_of_lookup_2.
    + apply (IH i j); [lia|done..].
Qed.

(** In a batch sorted by rank the events of a type of lower rank come
    before those of a type of higher rank. *)
Lemma sorted_precedes (l : list Event) ty1 ty2 :
  StronglySorted rankLe l → rank ty1 < rank ty2 → precedes ty1 ty2 l.
Proof.
  intros Hs Hr i j e1 e2 H1 H2 <- <-.
  destruct (decide (i < j)) as [|Hge]; [done|]. exfalso.
  destruct (decide (i = j)) as [->|Hne].
  - rewrite H1 in H2. injection H2 as ->. lia.
  - pose proof (sorted_lookup_lt l j i e2 e1 Hs ltac:(lia) H2 H1) as Hle.
    unfold rankLe in Hle. lia.
Qed.

(* --------------------------------------------------------------------- *)
(* generateEventsFromDiscoveryResponseV3 and handleFileEvent             *)
(* --------------------------------------------------------------------- *)

Section ProvisionerFacts.
Context {A : Adaptor} {D : Decoder}.

Lemma updateEvents_type l : Forall (λ e, Type_ e = EventUpdate) (updateEvents l).
Proof. unfold updateEvents. by apply Forall_fmap, Forall_true. Qed.

(** The pass over a discovery response, once its resources are converted
    and merged into [rm] and the EDS-only collection [updatedUpstreams]. *)
Lemma generateEventsFromDiscoveryResponseV3_ok p filename dr rm updatedUpstreams :
  processResources (Resources dr) (emptyManifest, []) = Ok (rm, updatedUpstreams) →
  generateEventsFromDiscoveryResponseV3 p filename dr =
    Ok ((generateEvents p filename (getPtr (state p) filename) (Some rm)).1
          ++ updateEvents updatedUpstreams,
        if decide (updatedUpstreams = []) then set_state <[filename := Some rm]> p
        else set_updatedUpstreamsFromEDS
               <[filename := getSlice (updatedUpstreamsFromEDS p) filename
                               ++ updatedUpstreams]>
               (set_state <[filename := Some rm]> p)).
Proof.
  intros Hr. unfold generateEventsFromDiscoveryResponseV3. rewrite Hr; simpl.
  pose proof (generateEvents_provisioner p filename (getPtr (state p) filename) (Some rm)) as Hp.
  destruct (generateEvents p filename (getPtr (state p) filename) (Some rm))
    as [evs p1]; simpl in *. subst p1.
  destruct updatedUpstreams as [|u us].
  - rewrite decide_False by (simpl; lia). rewrite decide_True by done.
    unfold updateEvents. simpl. by rewrite app_nil_r.
  - rewrite decide_True by (simpl; lia). by rewrite decide_False by done.
Qed.

Lemma generateEventsFromDiscoveryResponseV3_panic p filename dr :
  processResources (Resources dr) (emptyManifest, []) = Panic →
  generateEventsFromDiscoveryResponseV3 p filename dr = Panic.
Proof.
  intros Hr. unfold generateEventsFromDiscoveryResponseV3. by rewrite Hr.
Qed.

Lemma dispatch_Some events batch :
  dispatch events = Some batch → batch = events ∧ events ≠ [].
Proof.
  unfold dispatch. case_decide as Hl; [|done]. intros [= <-].
  split; [done|]. intros ->. simpl in Hl. lia.
Qed.

Lemma dispatch_nonempty events : events ≠ [] → dispatch events = Some events.
Proof.
  intros Hne. unfold dispatch. rewrite decide_True; [done|].
  destruct events; [done | simpl; lia].
Qed.

(** The remove branch of handleFileEvent for a file name with an entry in
    the State Table. *)
Lemma handleFileEvent_remove readFile p ev rmo :
  ev_Op ev = Remove → state p !! ev_Name ev = Some rmo →
  handleFileEvent readFile p ev =
    Ok (set_updatedUpstreamsFromEDS (delete (ev_Name ev))
          (set_state <[ev_Name ev := None]> p),
        dispatch (eventsOf rmo EventDelete
                    ++ (mkEvent EventUpdate ∘ UpstreamObject ∘ resetNodes
                          <$> getSlice (updatedUpstreamsFromEDS p) (ev_Name ev)))).
Proof.
  intros Hop Hst. unfold handleFileEvent.
  rewrite decide_False by (intros Hne; by apply Hne).
  rewrite Hst.
  pose proof (generateEvents_provisioner p (ev_Name ev) rmo None) as Hp.
  pose proof (generateEvents_events p (ev_Name ev) rmo None) as He.
  destruct (generateEvents p (ev_Name ev) rmo None) as [evs p1]; simpl in *.
  subst p1 evs. simpl.
  replace (eventsOf (changes rmo None).1.1 EventAdd
             ++ eventsOf (changes rmo None).1.2 EventDelete
             ++ eventsOf (changes rmo None).2 EventUpdate)
    with (eventsOf rmo EventDelete); [done|].
  destruct rmo as [o|]; simpl; by rewrite ?app_nil_r.
Qed.

Lemma handleFileEvent_sorted readFile p ev p' batch :
  handleFileEvent readFile p ev = Ok (p', Some batch) →
  StronglySorted rankLe batch.
Proof.
  unfold handleFileEvent. case_decide as Hop.
  - destruct (readFile (ev_Name ev)) as [data|]; [|done].
    destruct (Unmarshal data) as [dr|]; [|done].
    destruct (processResources (Resources dr) (emptyManifest, []))
      as [[rm upd]|] eqn:Hr.
    + rewrite (generateEventsFromDiscoveryResponseV3_ok _ _ _ _ _ Hr). simpl.
      intros [= _ [-> _]%dispatch_Some].
      apply sorted_app_updates; [apply generateEvents_sorted|apply updateEvents_type].
    + by rewrite (generateEventsFromDiscoveryResponseV3_panic _ _ _ Hr).
  - destruct (state p !! ev_Name ev) as [rmo|] eqn:Hst; [|done].
    pose proof (generateEvents_sorted p (ev_Name ev) rmo None) as Hs.
    destruct (generateEvents p (ev_Name ev) rmo None) as [evs p1]; simpl in *.
    intros [= _ [-> _]%dispatch_Some].
    apply sorted_app_updates; [done|].
    by apply Forall_fmap, Forall_true.
Qed.

(** C7.  In every batch that handleFileEvent sends, all Add events come
    before all Delete events and all Delete events before all Update
    events (so all Add events before all Update events too); the Update
    events of EDS-only upstreams, appended last, are included. *)
Theorem C7_fixed_batch_ordering readFile p ev p' batch :
  handleFileEvent readFile p ev = Ok (p', Some batch) →
  precedes EventAdd EventDelete batch
  ∧ precedes EventDelete EventUpdate batch
  ∧ precedes EventAdd EventUpdate batch.
Proof.
  intros Hs%handleFileEvent_sorted.
  split_and!; apply sorted_precedes; simpl; done || lia.
Qed.

End ProvisionerFacts.

(* --------------------------------------------------------------------- *)
(* The diff of a manifest against itself                                 *)
(* --------------------------------------------------------------------- *)

Section CompareFacts.
Context {A : Type} `{EqDecision A} (name : A → string).

Lemma filter_all_false (f : A → bool) (l : list A) :
  (∀ x, x ∈ l → f x = false) → List.filter f l = [].
Proof.
  induction l as [|x l IH]; intros Hf; [done|]. simpl.
  rewrite (Hf x) by left. apply IH. intros y Hy. apply Hf. by right.
Qed.

Lemma findByName_is_Some (l : list A) r :
  r ∈ l → is_Some (findByName name (name r) l).
Proof.
  intros Hr. unfold findByName.
  destruct (list_find_elem_of (λ x, name x = name r) l r Hr eq_refl) as [[i x] Hx].
  rewrite Hx. by eexists.
Qed.

(** Where names are unique, the entry found under the Name of a member is
    that member. *)
Lemma findByName_NoDup (l : list A) r :
  NoDup (name <$> l) → r ∈ l → findByName name (name r) l = Some r.
Proof.
  intros Hnd Hr. unfold findByName.
  destruct (list_find_elem_of (λ x, name x = name r) l r Hr eq_refl) as [[i x] Hx].
  rewrite Hx. simpl. f_equal.
  apply list_find_Some in Hx as (Hi & Hname & _).
  apply list_elem_of_lookup in Hr as [j Hj].
  assert (i = j) as ->; [|congruence].
  apply (NoDup_lookup (name <$> l) i j (name r)); [done|..].
  - by rewrite list_lookup_fmap, Hi; simpl; rewrite Hname.
  - by rewrite list_lookup_fmap, Hj.
Qed.

Lemma compareAdded_self (l : list A) : compareAdded name l l = [].
Proof.
  apply filter_all_false. intros r Hr.
  destruct (findByName_is_Some l r Hr) as [o Ho]. rewrite Ho.
  by apply bool_decide_eq_false.
Qed.

Lemma compareDeleted_self (l : list A) : compareDeleted name l l = [].
Proof.
  apply filter_all_false. intros r Hr.
  destruct (findByName_is_Some l r Hr) as [o Ho]. rewrite Ho.
  by apply bool_decide_eq_false.
Qed.

Lemma compareUpdated_self (l : list A) :
  NoDup (name <$> l) → compareUpdated name l l = [].
Proof.
  intros Hnd. apply filter_all_false. intros r Hr.
  rewrite (findByName_NoDup l r Hnd Hr).
  apply bool_decide_eq_false. by intros Hne.
Qed.
End CompareFacts.

Lemma DiffFrom_self M :
  manifest_wf M → DiffFrom M M = (emptyManifest, emptyManifest, emptyManifest).
Proof.
  intros [Hr Hu]. unfold DiffFrom.
  by rewrite !compareAdded_self, !compareDeleted_self, !compareUpdated_self.
Qed.

Lemma emptyDiff_self M : manifest_wf M → emptyDiff (Some M) (Some M).
Proof.
  intros Hwf. unfold emptyDiff, changes. by rewrite DiffFrom_self.
Qed.

Lemma emptyDiff_events p filename rmo rm :
  emptyDiff rmo rm → (generateEvents p filename rmo rm).1 = [].
Proof.
  unfold emptyDiff. intros He. rewrite generateEvents_events.
  by rewrite !eventsOf_size_0 by lia.
Qed.

(* --------------------------------------------------------------------- *)
(* Passes of handleFileEvent                                             *)
(* --------------------------------------------------------------------- *)

Section Passes.
Context {A : Adaptor} {D : Decoder}.


(** C4.  On a write event (any event but a remove) whose file cannot be
    read or whose bytes do not decode, handleFileEvent returns with the
    provisioner as it was, so with the State Table and the EDS table
    untouched, and sends no batch. *)
Theorem C4_parse_atomicity readFile p ev :
  ev_Op ev ≠ Remove →
  (readFile (ev_Name ev) = None
   ∨ ∃ data, readFile (ev_Name ev) = Some data ∧ Unmarshal data = None) →
  handleFileEvent readFile p ev = Ok (p, None).
Proof.
  intros Hop Hfail. unfold handleFileEvent. rewrite decide_True by done.
  destruct Hfail as [-> | (data & -> & ->)]; done.
Qed.

Lemma ofType_same ty (evs : list Event) :
  Forall (λ e, Type_ e = ty) evs → ofType ty evs = evs.
Proof.
  unfold ofType. induction 1 as [|e evs He Hevs IH]; [done|]. simpl.
  by rewrite bool_decide_eq_true_2, IH.
Qed.

Lemma ofType_other ty ty' (evs : list Event) :
  ty' ≠ ty → Forall (λ e, Type_ e = ty') evs → ofType ty evs = [].
Proof.
  intros Hne. unfold ofType. induction 1 as [|e evs He Hevs IH]; [done|]. simpl.
  rewrite bool_decide_eq_false_2; [done|]. by rewrite He.
Qed.

Lemma ofType_app ty (evs1 evs2 : list Event) :
  ofType ty (evs1 ++ evs2) = ofType ty evs1 ++ ofType ty evs2.
Proof. apply List.filter_app. Qed.

Lemma dispatch_decide (events : list Event) :
  dispatch events = if decide (events = []) then None else Some events.
Proof.
  case_decide as He; [by subst|]. by apply dispatch_nonempty.
Qed.

(** C5.  A write pass over a file that has no prior manifest (no entry in
    the State Table, or a nil one) sends, unless it is empty, the batch
    made of one Add event per resource of the new manifest, in the
    manifest's order, followed by the Update events of the EDS-only
    upstreams of the pass: the Add events of the batch are exactly those
    of the resources of the new manifest, it has no Delete event, and
    its Update events are those of the EDS-only upstreams alone.  A
    remove pass over a file that has a prior manifest sends, unless it is
    empty, the batch made of one Delete event per resource of the prior
    manifest, in the manifest's order, followed by the Update events that
    reset the recorded EDS-only upstreams: the Delete events of the batch
    are exactly those of the resources of the prior manifest, and it has
    no Add event. *)
Theorem C5_diff_boundary_cases readFile p ev data dr new updatedUpstreams old :
  (ev_Op ev ≠ Remove →
   readFile (ev_Name ev) = Some data → Unmarshal data = Some dr →
   processResources (Resources dr) (emptyManifest, []) = Ok (new, updatedUpstreams) →
   getPtr (state p) (ev_Name ev) = None →
   let batch := (mkEvent EventAdd <$> resources new)
                  ++ updateEvents updatedUpstreams in
   (∃ p', handleFileEvent readFile p ev
          = Ok (p', if decide (batch = []) then None else Some batch))
   ∧ ofType EventAdd batch = mkEvent EventAdd <$> resources new
   ∧ ofType EventDelete batch = []
   ∧ ofType EventUpdate batch = updateEvents updatedUpstreams)
  ∧ (ev_Op ev = Remove →
     state p !! ev_Name ev = Some (Some old) →
     let batch := (mkEvent EventDelete <$> resources old)
                    ++ (mkEvent EventUpdate ∘ UpstreamObject ∘ resetNodes
                          <$> getSlice (updatedUpstreamsFromEDS p) (ev_Name ev)) in
     (∃ p', handleFileEvent readFile p ev
            = Ok (p', if decide (batch = []) then None else Some batch))
     ∧ ofType EventDelete batch = mkEvent EventDelete <$> resources old
     ∧ ofType EventAdd batch = []).
Proof.
  split.
  - intros Hop Hread Hdec Hr Hprior batch.
    assert (Forall (λ e, Type_ e = EventAdd) (mkEvent EventAdd <$> resources new))
      as Hadds by by apply Forall_fmap, Forall_true.
    pose proof (updateEvents_type updatedUpstreams) as Hupds.
    split_and!.
    + unfold handleFileEvent. rewrite decide_True by done.
      rewrite Hread, Hdec.
      rewrite (generateEventsFromDiscoveryResponseV3_ok _ _ _ _ _ Hr).
      cbn [rbind]. rewrite Hprior.
      destruct (generateEvents_boundary_cases p (ev_Name ev) new new) as [-> _].
      rewrite dispatch_decide. by eexists.
    + unfold batch. rewrite ofType_app, (ofType_same _ _ Hadds).
      rewrite (ofType_other EventAdd EventUpdate) by done. by rewrite app_nil_r.
    + unfold batch. rewrite ofType_app.
      rewrite (ofType_other EventDelete EventAdd) by done.
      by rewrite (ofType_other EventDelete EventUpdate).
    + unfold batch. rewrite ofType_app, (ofType_same _ _ Hupds).
      by rewrite (ofType_other EventUpdate EventAdd).
  - intros Hop Hst batch.
    assert (Forall (λ e, Type_ e = EventDelete) (mkEvent EventDelete <$> resources old))
      as Hdels by by apply Forall_fmap, Forall_true.
    assert (Forall (λ e, Type_ e = EventUpdate)
              (mkEvent EventUpdate ∘ UpstreamObject ∘ resetNodes
                 <$> getSlice (updatedUpstreamsFromEDS p) (ev_Name ev)))
      as Hupds by by apply Forall_fmap, Forall_true.
    split_and!.
    + rewrite (handleFileEvent_remove _ _ _ (Some old)) by done.
      cbn [eventsOf]. rewrite Events_resources, dispatch_decide. by eexists.
    + unfold batch. rewrite ofType_app, (ofType_same _ _ Hdels).
      rewrite (ofType_other EventDelete EventUpdate) by done. by rewrite app_nil_r.
    + unfold batch. rewrite ofType_app.
      rewrite (ofType_other EventAdd EventDelete) by done.
      by rewrite (ofType_other EventAdd EventUpdate).
Qed.

(** C8.  The diff of a manifest against itself has no added, deleted or
    updated resource.  A write pass with an empty diff and no EDS-only
    upstream sends no batch, and records the new manifest; in particular
    the pass that finds the manifest it had recorded.  A remove pass with
    an empty diff and no recorded EDS-only upstream sends no batch
    either. *)
Theorem C8_idempotence_and_empty_diff :
  (∀ M, manifest_wf M →
     DiffFrom M M = (emptyManifest, emptyManifest, emptyManifest))
  ∧ (∀ readFile p ev data dr rm,
       ev_Op ev ≠ Remove →
       readFile (ev_Name ev) = Some data → Unmarshal data = Some dr →
       processResources (Resources dr) (emptyManifest, []) = Ok (rm, []) →
       emptyDiff (getPtr (state p) (ev_Name ev)) (Some rm) →
       handleFileEvent readFile p ev
       = Ok (set_state <[ev_Name ev := Some rm]> p, None))
  ∧ (∀ readFile p ev data dr M,
       ev_Op ev ≠ Remove →
       readFile (ev_Name ev) = Some data → Unmarshal data = Some dr →
       processResources (Resources dr) (emptyManifest, []) = Ok (M, []) →
       state p !! ev_Name ev = Some (Some M) → manifest_wf M →
       handleFileEvent readFile p ev
       = Ok (set_state <[ev_Name ev := Some M]> p, None))
  ∧ (∀ readFile p ev rmo,
       ev_Op ev = Remove →
       state p !! ev_Name ev = Some rmo → emptyDiff rmo None →
       getSlice (updatedUpstreamsFromEDS p) (ev_Name ev) = [] →
       ∃ p', handleFileEvent readFile p ev = Ok (p', None)).
Proof.
  assert (∀ readFile p ev data dr rm,
       ev_Op ev ≠ Remove →
       readFile (ev_Name ev) = Some data → Unmarshal data = Some dr →
       processResources (Resources dr) (emptyManifest, []) = Ok (rm, []) →
       emptyDiff (getPtr (state p) (ev_Name ev)) (Some rm) →
       handleFileEvent readFile p ev
       = Ok (set_state <[ev_Name ev := Some rm]> p, None)) as Hwrite.
  { intros readFile p ev data dr rm Hop Hread Hdec Hr Hempty.
    unfold handleFileEvent. rewrite decide_True by done.
    rewrite Hread, Hdec.
    rewrite (generateEventsFromDiscoveryResponseV3_ok _ _ _ _ _ Hr).
    rewrite (emptyDiff_events _ _ _ _ Hempty). by rewrite decide_True. }
  split_and!.
  - apply DiffFrom_self.
  - exact Hwrite.
  - intros readFile p ev data dr M Hop Hread Hdec Hr Hst Hwf.
    apply (Hwrite _ _ _ data dr); [done..|].
    unfold getPtr. rewrite Hst. simpl. by apply emptyDiff_self.
  - intros readFile p ev rmo Hop Hst Hempty Heds.
    rewrite (handleFileEvent_remove _ _ _ rmo) by done.
    rewrite Heds. eexists. f_equal. f_equal.
    replace (eventsOf rmo EventDelete) with (@nil Event); [done|].
    symmetry. apply eventsOf_size_0.
    unfold emptyDiff in Hempty. destruct rmo as [o|]; simpl in *; lia.
Qed.

(** C9.  A remove event on a file that has an entry in the State Table and
    a non-empty recording in the EDS table sends one batch: the Delete
    events of the recorded manifest, followed by one Update event per
    recorded upstream, in the order of the recording, whose object is the
    upstream with its nodes cleared and its other fields as they were.
    Afterwards the EDS table has no entry for the file. *)
Theorem C9_eds_reset_on_removal readFile p ev rmo recorded :
  ev_Op ev = Remove →
  state p !! ev_Name ev = Some rmo →
  updatedUpstreamsFromEDS p !! ev_Name ev = Some recorded →
  recorded ≠ [] →
  ∃ p' batch,
    handleFileEvent readFile p ev = Ok (p', Some batch)
    ∧ batch = eventsOf rmo EventDelete
                ++ (mkEvent EventUpdate ∘ UpstreamObject ∘ resetNodes <$> recorded)
    ∧ (∀ u, u ∈ recorded →
         mkEvent EventUpdate (UpstreamObject (resetNodes u)) ∈ batch
         ∧ ups_Nodes (resetNodes u) = []
         ∧ ups_Id (resetNodes u) = ups_Id u
         ∧ ups_Name (resetNodes u) = ups_Name u
         ∧ ups_Type (resetNodes u) = ups_Type u)
    ∧ updatedUpstreamsFromEDS p' !! ev_Name ev = None.
Proof.
  intros Hop Hst Heds Hne.
  rewrite (handleFileEvent_remove _ _ _ rmo) by done.
  unfold getSlice. rewrite Heds. simpl.
  rewrite dispatch_nonempty.
  - eexists _, _. split; [done|]. split_and!.
    + done.
    + intros u Hu. split_and!; try done.
      apply elem_of_app. right.
      by apply (list_elem_of_fmap_2 (mkEvent EventUpdate ∘ UpstreamObject ∘ resetNodes)).
    + simpl. by rewrite lookup_delete_eq.
  - intros Happ. apply app_eq_nil in Happ as [_ Hu].
    by apply fmap_nil_inv in Hu.
Qed.

End Passes.

(* --------------------------------------------------------------------- *)
(* The passes on concrete files                                          *)
(* --------------------------------------------------------------------- *)

Section PassExamples.
Import Demo.

(** The first pass over a file that holds the load assignment of [x]
    leads to [recordedX]. *)
Example first_pass_records_x :
  handleFileEvent (holding "Ex") emptyProvisioner (mkFsEvent file Write)
  = Ok (recordedX, Some [mkEvent EventUpdate (UpstreamObject (endpoints "x" [node1]))]).
Proof. reflexivity. Qed.



Lemma C4_parse_atomicity_witness :
  handleFileEvent (holding "C") recordedX (mkFsEvent file Write)
    = Ok (recordedX, None)
  ∧ handleFileEvent unreadable recordedX (mkFsEvent file Create)
    = Ok (recordedX, None).
Proof.
  split.
  - apply C4_parse_atomicity; [discriminate|].
    right. eexists. split; reflexivity.
  - apply C4_parse_atomicity; [discriminate|]. by left.
Defined.

Lemma C5_diff_boundary_cases_witness :
  (∃ p', handleFileEvent (holding "CaRrEx") emptyProvisioner (mkFsEvent file Write)
         = Ok (p', Some [mkEvent EventAdd (RouteObject (route "r"));
                         mkEvent EventAdd (UpstreamObject (cluster "a"));
                         mkEvent EventUpdate (UpstreamObject (endpoints "x" [node1]))]))
  ∧ (∃ p', handleFileEvent unreadable
             (mkProvisioner [file] {[file := Some (mkManifest [route "r"] [cluster "b"])]}
                ∅ {[file := [endpoints "x" [node1]]]})
             (mkFsEvent file Remove)
           = Ok (p', Some [mkEvent EventDelete (RouteObject (route "r"));
                           mkEvent EventDelete (UpstreamObject (cluster "b"));
                           mkEvent EventUpdate (UpstreamObject (endpoints "x" []))])).
Proof.
  split.
  - apply (C5_diff_boundary_cases (holding "CaRrEx") emptyProvisioner
             (mkFsEvent file Write) (String.list_byte_of_string "CaRrEx")
             (mkDiscoveryResponse
                [Cluster "a"; RouteConfiguration "r"; ClusterLoadAssignment "x"])
             (mkManifest [route "r"] [cluster "a"]) [endpoints "x" [node1]]
             emptyManifest).
    + discriminate.
    + reflexivity.
    + reflexivity.
    + reflexivity.
    + reflexivity.
  - destruct (C5_diff_boundary_cases unreadable
                (mkProvisioner [file]
                   {[file := Some (mkManifest [route "r"] [cluster "b"])]}
                   ∅ {[file := [endpoints "x" [node1]]]})
                (mkFsEvent file Remove) [] (mkDiscoveryResponse [])
                emptyManifest [] (mkManifest [route "r"] [cluster "b"]))
      as [_ Hremove].
    destruct Hremove as [Hbatch _].
    + reflexivity.
    + reflexivity.
    + exact Hbatch.
Defined.

Lemma C7_fixed_batch_ordering_witness :
  let batch := [mkEvent EventAdd (UpstreamObject (cluster "a"));
                mkEvent EventDelete (UpstreamObject (cluster "b"));
                mkEvent EventUpdate (UpstreamObject (endpoints "x" [node1]))] in
  precedes EventAdd EventDelete batch
  ∧ precedes EventDelete EventUpdate batch
  ∧ precedes EventAdd EventUpdate batch.
Proof.
  intros batch.
  eapply (C7_fixed_batch_ordering (holding "CaEx") withB (mkFsEvent file Write)).
  reflexivity.
Defined.

Lemma C8_idempotence_and_empty_diff_witness :
  DiffFrom (mkManifest [route "r"] [cluster "a"; cluster "b"])
           (mkManifest [route "r"] [cluster "a"; cluster "b"])
    = (emptyManifest, emptyManifest, emptyManifest)
  ∧ handleFileEvent (holding "Cb") withB (mkFsEvent file Write)
    = Ok (set_state <[file := Some (mkManifest [] [cluster "b"])]> withB, None)
  ∧ ∃ p', handleFileEvent unreadable
            (mkProvisioner [file] {[file := None]} ∅ ∅) (mkFsEvent file Remove)
          = Ok (p', None).
Proof.
  destruct (C8_idempotence_and_empty_diff (A := adaptor) (D := decoder))
    as (Hdiff & _ & Hsame & Hremove).
  split_and!.
  - apply Hdiff. split; compute_done.
  - apply (Hsame (holding "Cb") withB (mkFsEvent file Write)
             (String.list_byte_of_string "Cb")
             (mkDiscoveryResponse [Cluster "b"])
             (mkManifest [] [cluster "b"])).
    + discriminate.
    + reflexivity.
    + reflexivity.
    + reflexivity.
    + reflexivity.
    + split; compute_done.
  - apply (Hremove unreadable (mkProvisioner [file] {[file := None]} ∅ ∅)
             (mkFsEvent file Remove) None).
    + reflexivity.
    + reflexivity.
    + reflexivity.
    + reflexivity.
Defined.

Lemma C9_eds_reset_on_removal_witness :
  ∃ p' batch,
    handleFileEvent unreadable recordedX (mkFsEvent file Remove) = Ok (p', Some batch)
    ∧ batch = eventsOf (Some emptyManifest) EventDelete
                ++ (mkEvent EventUpdate ∘ UpstreamObject ∘ resetNodes
                      <$> [endpoints "x" [node1]])
    ∧ (∀ u, u ∈ [endpoints "x" [node1]] →
         mkEvent EventUpdate (UpstreamObject (resetNodes u)) ∈ batch
         ∧ ups_Nodes (resetNodes u) = []
         ∧ ups_Id (resetNodes u) = ups_Id u
         ∧ ups_Name (resetNodes u) = ups_Name u
         ∧ ups_Type (resetNodes u) = ups_Type u)
    ∧ updatedUpstreamsFromEDS p' !! file = None.
Proof.
  apply (C9_eds_reset_on_removal unreadable recordedX (mkFsEvent file Remove)
           (Some emptyManifest) [endpoints "x" [node1]]).
  - reflexivity.
  - reflexivity.
  - reflexivity.
  - discriminate.
Defined.

(** The removal of the spec's example: the recorded [x] is reset, not
    deleted. *)
Example removal_resets_x :
  snd <$> (match handleFileEvent unreadable recordedX (mkFsEvent file Remove) with
           | Ok r => Some r
           | Panic => None
           end)
  = Some (Some [mkEvent EventUpdate (UpstreamObject (endpoints "x" []))]).
Proof. reflexivity. Qed.

End PassExamples.

(* --------------------------------------------------------------------- *)
(* The inbound rules of the iptables command                             *)
(* --------------------------------------------------------------------- *)

Section InboundRules.
Import iptables.
Context {C : ChainNames}.

(** C10.  With the inbound ports set to the wildcard, insertInboundRules
    appends exactly three rules to the builder: the jump of PREROUTING to
    the inbound chain, then the rule of the inbound chain that RETURNs TCP
    traffic to port 22, then the rule of the inbound chain that sends all
    TCP traffic to the redirect chain; so the RETURN rule for port 22
    stands before the redirecting rule.  With the inbound ports empty it
    appends no rule. *)
Theorem C10_wildcard_excludes_ssh (cfg : Config) (b : list Rule) :
  (InboundPortsInclude cfg = "*" →
     insertInboundRules cfg b
       = b ++ [jumpInboundRule; sshReturnRule; redirectAllRule]
     ∧ insertInboundRules cfg b !! (length b + 1) = Some sshReturnRule
     ∧ insertInboundRules cfg b !! (length b + 2) = Some redirectAllRule
     ∧ params sshReturnRule = ["-p"; "tcp"; "--dport"; "22"; "-j"; "RETURN"])
  ∧ (InboundPortsInclude cfg = "" → insertInboundRules cfg b = b).
Proof.
  split.
  - intros Hw.
    assert (insertInboundRules cfg b
            = b ++ [jumpInboundRule; sshReturnRule; redirectAllRule]) as Heq.
    { unfold insertInboundRules, AppendRuleV4. rewrite Hw.
      rewrite decide_False by discriminate. rewrite decide_True by done.
      by rewrite <-!app_assoc. }
    rewrite Heq. split_and!; [done| | |done].
    + rewrite lookup_app_r by lia. by replace (length b + 1 - length b) with 1 by lia.
    + rewrite lookup_app_r by lia. by replace (length b + 2 - length b) with 2 by lia.
  - intros He. unfold insertInboundRules. by rewrite He, decide_True.
Qed.

End InboundRules.

Section InboundExamples.
Import Demo iptables.

Lemma C10_wildcard_excludes_ssh_witness :
  insertInboundRules wildcard []
    = [jumpInboundRule; sshReturnRule; redirectAllRule]
  ∧ insertInboundRules
      (mkConfig "REDIRECT" "9080" "" "80" false) [] = [].
Proof.
  split.
  - apply (C10_wildcard_excludes_ssh (C := chains) wildcard []).
    reflexivity.
  - apply (C10_wildcard_excludes_ssh (C := chains)
             (mkConfig "REDIRECT" "9080" "" "80" false) []).
    reflexivity.
Defined.

(** The rules of [run] under the wildcard: port 22 leaves the inbound
    chain before the redirection of everything else. *)
Example run_wildcard :
  run wildcard
  = [mkRule "APISIX_REDIRECT" "nat"
       ["-p"; "tcp"; "-j"; "REDIRECT"; "--to-ports"; "9080"];
     mkRule "PREROUTING" "nat"
       ["-p"; "tcp"; "-j"; "APISIX_INBOUND_REDIRECT"];
     mkRule "APISIX_INBOUND_REDIRECT" "nat"
       ["-p"; "tcp"; "--dport"; "22"; "-j"; "RETURN"];
     mkRule "APISIX_INBOUND_REDIRECT" "nat"
       ["-p"; "tcp"; "-j"; "APISIX_REDIRECT"]].
Proof. reflexivity. Qed.

End InboundExamples.

(* ===================================================================== *)
(* Further properties                                                    *)
(* ===================================================================== *)

(* --------------------------------------------------------------------- *)
(* What the merge loop computes                                          *)
(* --------------------------------------------------------------------- *)

(** With no cluster-derived upstream every round keeps its upstream in
    place: [kept] are the rounds done, [rest] those to come. *)
Lemma mergeLoop_nil_state (rest : list Upstream) : ∀ kept : list Upstream,
  mergeLoop (seq (length kept) (length rest)) ([], kept ++ rest, length kept)
  = Ok ([], kept ++ rest, length kept + length rest).
Proof.
  induction rest as [|u rest IH]; intros kept.
  - simpl. by rewrite Nat.add_0_r.
  - cbn [length seq mergeLoop].
    rewrite (mergeStep_nil _ _ _ u).
    + cbn [rbind].
      rewrite list_insert_id by by apply list_lookup_middle.
      specialize (IH (kept ++ [u])).
      rewrite length_app, <-app_assoc in IH. simpl in IH.
      rewrite Nat.add_1_r in IH. rewrite IH.
      by replace (length kept + S (length rest)) with (S (length kept) + length rest) by lia.
    + by apply list_lookup_middle.
    + rewrite length_app. simpl. lia.
Qed.

(** The state of the outer loop after the rounds over [done]: the
    manifest's list is [done] followed by the entries not yet reached,
    and [ups] holds the upstreams kept so far, then stale entries, then
    the upstreams not yet reached. *)
Lemma mergeLoop_pairs (restUps : list Upstream) :
  ∀ (restRm done kept junk : list Upstream),
    length restUps ≤ length restRm →
    length done = length kept + length junk →
    ∃ ups',
      mergeLoop (seq (length done) (length restUps))
        (done ++ restRm, kept ++ junk ++ restUps, length kept)
      = Ok (done ++ (mergePairs restRm restUps).1, ups',
            length kept + length (mergePairs restRm restUps).2)
      ∧ take (length kept + length (mergePairs restRm restUps).2) ups'
        = kept ++ (mergePairs restRm restUps).2.
Proof.
  induction restUps as [|u restUps IH]; intros restRm done kept junk Hlen Hdone.
  - exists (kept ++ junk ++ []).
    replace (mergePairs restRm []) with (restRm, @nil Upstream)
      by by destruct restRm.
    simpl. rewrite Nat.add_0_r, !app_nil_r. split; [done|].
    by rewrite take_app_length.
  - destruct restRm as [|r restRm]; [simpl in Hlen; lia|].
    simpl in Hlen.
    cbn [length seq mergeLoop].
    rewrite mergeStep_cons by by destruct done.
    assert ((done ++ r :: restRm) !! length done = Some r) as Hr
      by by apply list_lookup_middle.
    assert ((kept ++ junk ++ u :: restUps) !! length done = Some u) as Hu.
    { rewrite app_assoc. apply list_lookup_middle. by rewrite length_app. }
    unfold compareAt. rewrite Hr, Hu.
    cbn [mergePairs].
    destruct (mergePairs restRm restUps) as [merged edsOnly] eqn:Hm.
    case_decide as Hname; cbn [rbind fst snd].
    + (* the Names agree: the entry is replaced, [u] becomes stale *)
      destruct (IH restRm (done ++ [u]) kept (junk ++ [u])) as (ups' & Hl & Ht).
      { lia. }
      { rewrite !length_app. simpl. lia. }
      rewrite Hm in Hl, Ht. cbn [fst snd] in Hl, Ht.
      exists ups'. split; [|done].
      rewrite insert_app_r_alt by lia. rewrite Nat.sub_diag. cbn [insert list_insert].
      replace (S (length done)) with (length (done ++ [u]))
        by (rewrite length_app; simpl; lia).
      replace (done ++ u :: restRm) with ((done ++ [u]) ++ restRm)
        by by rewrite <-app_assoc.
      replace (kept ++ junk ++ u :: restUps) with (kept ++ (junk ++ [u]) ++ restUps)
        by by rewrite <-app_assoc.
      rewrite Hl. by rewrite <-app_assoc.
    + (* the Names differ: [u] is written at [slot] *)
      unfold index. rewrite Hu. cbn [rbind].
      rewrite decide_True by (rewrite !length_app; simpl; lia).
      assert (∃ junk', <[length kept:=u]> (kept ++ junk ++ u :: restUps)
                       = (kept ++ [u]) ++ junk' ++ restUps
                       ∧ length junk' = length junk) as (junk' & Hins & Hj).
      { rewrite insert_app_r_alt by lia. rewrite Nat.sub_diag.
        destruct junk as [|j junk].
        - exists []. simpl. by rewrite <-app_assoc.
        - exists (junk ++ [u]). simpl. rewrite <-!app_assoc. simpl.
          split; [done|]. rewrite length_app. simpl. lia. }
      rewrite Hins.
      destruct (IH restRm (done ++ [r]) (kept ++ [u]) junk') as (ups' & Hl & Ht).
      { lia. }
      { rewrite !length_app. simpl. lia. }
      rewrite Hm in Hl, Ht. cbn [fst snd] in Hl, Ht.
      assert (length (kept ++ [u]) + length edsOnly
              = length kept + length (u :: edsOnly)) as Hslot
        by (rewrite length_app; simpl; lia).
      rewrite Hslot in Hl, Ht.
      exists ups'. split.
      * replace (S (length done)) with (length (done ++ [r]))
          by (rewrite length_app; simpl; lia).
        replace (S (length kept)) with (length (kept ++ [u]))
          by (rewrite length_app; simpl; lia).
        replace (done ++ r :: restRm) with ((done ++ [r]) ++ restRm)
          by by rewrite <-app_assoc.
        cbn [rbind]. rewrite Hl. by rewrite <-app_assoc.
      * rewrite Ht. by rewrite <-app_assoc.
Qed.

Lemma mergePairs_names rmUpstreams : ∀ ups,
  ups_Name <$> (mergePairs rmUpstreams ups).1 = ups_Name <$> rmUpstreams.
Proof.
  induction rmUpstreams as [|r rm IH]; intros [|u ups]; try done.
  cbn [mergePairs]. specialize (IH ups).
  destruct (mergePairs rm ups) as [merged edsOnly]. simpl in IH.
  case_decide as Hname; cbn [fst]; rewrite !fmap_cons, IH; by rewrite ?Hname.
Qed.

Lemma mergePairs_sublist rmUpstreams : ∀ ups,
  (mergePairs rmUpstreams ups).2 `sublist_of` ups.
Proof.
  induction rmUpstreams as [|r rm IH]; intros [|u ups];
    try (simpl; apply sublist_nil_l).
  cbn [mergePairs]. specialize (IH ups).
  destruct (mergePairs rm ups) as [merged edsOnly]. simpl in IH.
  case_decide; simpl; by constructor.
Qed.

Lemma mergePairs_conserves rmUpstreams : ∀ ups u,
  length ups ≤ length rmUpstreams → u ∈ ups →
  u ∈ (mergePairs rmUpstreams ups).1 ∨ u ∈ (mergePairs rmUpstreams ups).2.
Proof.
  induction rmUpstreams as [|r rm IH]; intros [|u' ups] u Hlen Hu;
    try (by apply elem_of_nil in Hu); [simpl in Hlen; lia|].
  cbn [mergePairs]. specialize (IH ups u).
  destruct (mergePairs rm ups) as [merged edsOnly]. simpl in IH, Hlen.
  apply elem_of_cons in Hu as [->|Hu].
  - case_decide; simpl; [left|right]; by left.
  - destruct IH as [?|?]; [lia|done|..]; case_decide; simpl;
      ((left; by right) || (right; by right) || by right).
Qed.

(** X1.  The merge loop, in full: with no cluster-derived upstream, every
    upstream of the load assignment is EDS-only; with some, and no more
    upstreams in the load assignment than in the manifest's list, the
    two lists are merged position by position; otherwise the loop
    panics. *)
Theorem mergeEDS_characterised (rmUpstreams ups : list Upstream) :
  mergeEDS rmUpstreams ups =
    if decide (rmUpstreams = []) then Ok ([], ups)
    else if decide (length ups ≤ length rmUpstreams)
         then Ok (mergePairs rmUpstreams ups)
         else Panic.
Proof.
  case_decide as Hnil.
  - subst. unfold mergeEDS.
    pose proof (mergeLoop_nil_state ups []) as Hl. simpl in Hl.
    rewrite Hl. simpl. by rewrite take_ge.
  - case_decide as Hlen.
    + unfold mergeEDS.
      destruct (mergeLoop_pairs ups rmUpstreams [] [] [] Hlen eq_refl)
        as (ups' & Hl & Ht).
      simpl in Hl, Ht. rewrite Hl. simpl. rewrite Ht.
      by destruct (mergePairs rmUpstreams ups).
    + apply mergeEDS_panic_iff. split; [done|lia].
Qed.

(** X2.  Whenever the merge returns, the manifest's upstream list has the
    Names it had, in the same order; the EDS-only upstreams are upstreams
    of the load assignment, in their order; and every upstream of the
    load assignment is in the manifest's list or EDS-only: none is
    lost. *)
Theorem mergeEDS_keeps_names (rmUpstreams ups merged edsOnly : list Upstream) :
  mergeEDS rmUpstreams ups = Ok (merged, edsOnly) →
  ups_Name <$> merged = ups_Name <$> rmUpstreams
  ∧ edsOnly `sublist_of` ups
  ∧ ∀ u, u ∈ ups → u ∈ merged ∨ u ∈ edsOnly.
Proof.
  rewrite mergeEDS_characterised.
  case_decide as Hnil; [|case_decide as Hlen; [|done]].
  - intros [= <- <-]. subst. split_and!; [done|done|]. intros u Hu. by right.
  - intros Heq. injection Heq as Heq.
    pose proof (mergePairs_names rmUpstreams ups) as Hn.
    pose proof (mergePairs_sublist rmUpstreams ups) as Hs.
    pose proof (mergePairs_conserves rmUpstreams ups) as Hc.
    rewrite Heq in Hn, Hs, Hc. simpl in *. split_and!; [done|done|].
    intros u Hu. by apply Hc.
Qed.

Lemma mergeEDS_keeps_names_witness :
  ups_Name <$> [Demo.endpoints "a" [Demo.node1]; Demo.cluster "b"]
    = ups_Name <$> [Demo.cluster "a"; Demo.cluster "b"]
  ∧ [Demo.endpoints "c" [Demo.node1]]
      `sublist_of` [Demo.endpoints "a" [Demo.node1]; Demo.endpoints "c" [Demo.node1]]
  ∧ ∀ u, u ∈ [Demo.endpoints "a" [Demo.node1]; Demo.endpoints "c" [Demo.node1]] →
      u ∈ [Demo.endpoints "a" [Demo.node1]; Demo.cluster "b"]
      ∨ u ∈ [Demo.endpoints "c" [Demo.node1]].
Proof.
  apply (mergeEDS_keeps_names [Demo.cluster "a"; Demo.cluster "b"]).
  reflexivity.
Defined.

(* --------------------------------------------------------------------- *)
(* The loop over the resources of a discovery response                   *)
(* --------------------------------------------------------------------- *)

Section ResourceLoop.
Context {A : Adaptor}.

Lemma processResource_unrecognized res st :
  recognized res = false → processResource res st = Ok st.
Proof.
  unfold recognized, isRoute, isCluster, isLoadAssignment.
  intros Hr. destruct st as [rm upd]. unfold processResource.
  repeat case_decide; try done;
    rewrite ?bool_decide_eq_true_2 in Hr by done; simpl in Hr;
    by rewrite ?orb_true_r in Hr.
Qed.

(** X3.  A resource of an unrecognised kind has no effect on the pass: the
    loop gives the same result as on the response without such
    resources, whatever comes before or after them. *)
Theorem processResources_skips_unrecognized (rs : list Any)
    (st : Manifest * list Upstream) :
  processResources rs st = processResources (List.filter recognized rs) st.
Proof.
  revert st. induction rs as [|res rs IH]; intros st; [done|].
  cbn [List.filter]. destruct (recognized res) eqn:Hr.
  - cbn [processResources]. destruct (processResource res st); [|done].
    simpl. apply IH.
  - cbn [processResources]. rewrite processResource_unrecognized by done.
    simpl. apply IH.
Qed.

(** X4.  In the manifest of a pass the routes are the conversions of the
    route configurations of the response, in order, and the upstreams
    carry the Names of the conversions of its clusters, in order: load
    assignments neither add an upstream to the manifest nor change a
    Name.  The EDS-only collection is drawn, in order, from the
    conversions of the load assignments. *)
Theorem processResources_manifest (rs : list Any) (rm : Manifest)
    (updatedUpstreams : list Upstream) :
  processResources rs (emptyManifest, []) = Ok (rm, updatedUpstreams) →
  Routes rm = concat (processRouteConfigurationV3 <$> List.filter isRoute rs)
  ∧ ups_Name <$> Upstreams rm
    = ups_Name <$> concat (processClusterV3 <$> List.filter isCluster rs)
  ∧ updatedUpstreams
      `sublist_of`
    concat (processClusterLoadAssignmentV3 <$> List.filter isLoadAssignment rs).
Proof.
  assert (∀ rs rm0 upd0 rm upd,
    processResources rs (rm0, upd0) = Ok (rm, upd) →
    Routes rm = Routes rm0 ++ concat (processRouteConfigurationV3 <$> List.filter isRoute rs)
    ∧ ups_Name <$> Upstreams rm
      = (ups_Name <$> Upstreams rm0)
          ++ (ups_Name <$> concat (processClusterV3 <$> List.filter isCluster rs))
    ∧ ∃ more, upd = upd0 ++ more
        ∧ more `sublist_of`
          concat (processClusterLoadAssignmentV3 <$> List.filter isLoadAssignment rs))
    as Hgen.
  { clear. intros rs. induction rs as [|res rs IH]; intros rm0 upd0 rm upd Hp.
    - injection Hp as <- <-. simpl. rewrite !app_nil_r.
      split_and!; [done|done|]. exists []. by rewrite app_nil_r.
    - cbn [processResources] in Hp. unfold processResource in Hp.
      unfold isRoute, isCluster, isLoadAssignment. cbn [List.filter].
      case_decide as H1.
      + cbn [rbind] in Hp. apply IH in Hp as (Hr & Hu & more & -> & Hs).
        cbn [Routes Upstreams] in Hr, Hu.
        rewrite bool_decide_eq_true_2 by done.
        rewrite !bool_decide_eq_false_2 by (rewrite H1; discriminate).
        rewrite fmap_cons. cbn [concat]. rewrite Hr, Hu, <-app_assoc.
        split_and!; [done|done|]. by exists more.
      + case_decide as H2.
        * cbn [rbind] in Hp. apply IH in Hp as (Hr & Hu & more & -> & Hs).
          cbn [Routes Upstreams] in Hr, Hu.
          rewrite bool_decide_eq_false_2 by done.
          rewrite bool_decide_eq_true_2 by done.
          rewrite bool_decide_eq_false_2 by (rewrite H2; discriminate).
          rewrite fmap_cons. cbn [concat].
          rewrite Hr, Hu, !fmap_app, <-app_assoc.
          split_and!; [done|done|]. by exists more.
        * rewrite !bool_decide_eq_false_2 by done.
          case_decide as H3.
          -- destruct (mergeEDS (Upstreams rm0) (processClusterLoadAssignmentV3 res))
               as [[merged edsOnly]|] eqn:Hm; [|done].
             cbn [rbind] in Hp. apply IH in Hp as (Hr & Hu & more & -> & Hs).
             cbn [Routes Upstreams] in Hr, Hu.
             apply mergeEDS_keeps_names in Hm as (Hn & Hsub & _).
             rewrite bool_decide_eq_true_2 by done.
             rewrite fmap_cons. cbn [concat]. rewrite Hr, Hu, Hn.
             split_and!; [done|done|].
             exists (edsOnly ++ more). rewrite <-app_assoc. split; [done|].
             by apply sublist_app.
          -- rewrite bool_decide_eq_false_2 by done.
             cbn [rbind] in Hp. by apply IH in Hp. }
  intros Hp. apply Hgen in Hp as (Hr & Hu & more & Hupd & Hs).
  simpl in *. by subst.
Qed.

(** X5.  Where every load assignment converts to at most one upstream,
    no event makes handleFileEvent panic. *)
Theorem handleFileEvent_no_panic {D : Decoder}
    (readFile : string → option (list Byte.byte))
    (p : xdsFileProvisioner) (ev : FsEvent) :
  (∀ res, length (processClusterLoadAssignmentV3 res) ≤ 1) →
  handleFileEvent readFile p ev ≠ Panic.
Proof.
  intros Hone.
  assert (∀ rs st, processResources rs st ≠ Panic) as Hrs.
  { intros rs. induction rs as [|res rs IH]; intros [rm upd]; [done|].
    cbn [processResources]. unfold processResource.
    repeat case_decide; cbn [rbind]; try apply IH.
    destruct (mergeEDS (Upstreams rm) (processClusterLoadAssignmentV3 res))
      as [[merged edsOnly]|] eqn:Hm.
    - cbn [rbind]. apply IH.
    - by apply mergeEDS_short_total in Hm. }
  unfold handleFileEvent. case_decide.
  - destruct (readFile (ev_Name ev)) as [data|]; [|done].
    destruct (Unmarshal data) as [dr|]; [|done].
    destruct (processResources (Resources dr) (emptyManifest, []))
      as [[rm upd]|] eqn:Hr; [|by apply Hrs in Hr].
    by rewrite (generateEventsFromDiscoveryResponseV3_ok _ _ _ _ _ Hr).
  - destruct (state p !! ev_Name ev); [|done].
    by destruct (generateEvents p (ev_Name ev) o None).
Qed.

End ResourceLoop.

(* --------------------------------------------------------------------- *)
(* What handleFileEvent does to the tables                               *)
(* --------------------------------------------------------------------- *)

Section Tables.
Context {A : Adaptor} {D : Decoder}.

(** The provisioner after an event on [filename]: untouched; or after a
    write pass, with a manifest recorded and possibly a longer recording
    in the EDS table; or after a removal, with a nil manifest and no
    recording. *)
Lemma handleFileEvent_after readFile p ev p' batch :
  handleFileEvent readFile p ev = Ok (p', batch) →
  p' = p
  ∨ (∃ rm, p' = set_state <[ev_Name ev := Some rm]> p)
  ∨ (∃ rm updatedUpstreams,
       updatedUpstreams ≠ []
       ∧ p' = set_updatedUpstreamsFromEDS
                <[ev_Name ev := getSlice (updatedUpstreamsFromEDS p) (ev_Name ev)
                                  ++ updatedUpstreams]>
                (set_state <[ev_Name ev := Some rm]> p))
  ∨ (is_Some (state p !! ev_Name ev)
     ∧ p' = set_updatedUpstreamsFromEDS (delete (ev_Name ev))
              (set_state <[ev_Name ev := None]> p)).
Proof.
  unfold handleFileEvent. case_decide as Hop.
  - destruct (readFile (ev_Name ev)) as [data|]; [|intros [= <- _]; by left].
    destruct (Unmarshal data) as [dr|]; [|intros [= <- _]; by left].
    destruct (processResources (Resources dr) (emptyManifest, []))
      as [[rm upd]|] eqn:Hr.
    + rewrite (generateEventsFromDiscoveryResponseV3_ok _ _ _ _ _ Hr).
      cbn [rbind]. intros [= <- _]. case_decide.
      * right; left. by exists rm.
      * right; right; left. by exists rm, upd.
    + by rewrite (generateEventsFromDiscoveryResponseV3_panic _ _ _ Hr).
  - destruct (state p !! ev_Name ev) as [rmo|] eqn:Hst; [|intros [= <- _]; by left].
    pose proof (generateEvents_provisioner p (ev_Name ev) rmo None) as Hp.
    destruct (generateEvents p (ev_Name ev) rmo None) as [evs p1].
    simpl in Hp. subst p1. intros [= <- _]. right; right; right.
    split; [by eexists|done].
Qed.

(** X6.  An event on a file leaves the entries of every other file in the
    State Table and in the EDS table as they were, and never touches the
    list of watched files or the upstream cache. *)
Theorem handleFileEvent_other_files readFile p ev p' batch :
  handleFileEvent readFile p ev = Ok (p', batch) →
  files p' = files p
  ∧ upstreamCache p' = upstreamCache p
  ∧ ∀ other, other ≠ ev_Name ev →
      state p' !! other = state p !! other
      ∧ updatedUpstreamsFromEDS p' !! other = updatedUpstreamsFromEDS p !! other.
Proof.
  intros [->|[(rm & ->)|[(rm & upd & _ & ->)|(_ & ->)]]]%handleFileEvent_after;
    (split_and!; [done|done|]); intros other Hne; simpl;
    by rewrite ?lookup_insert_ne, ?lookup_delete_ne by done.
Qed.

(** X7.  The State Table only grows: a file name that has an entry keeps
    one after every event; a removal stores a nil manifest under the
    name, it does not delete the entry. *)
Theorem handleFileEvent_state_entries_stay readFile p ev p' batch filename :
  handleFileEvent readFile p ev = Ok (p', batch) →
  is_Some (state p !! filename) →
  is_Some (state p' !! filename)
  ∧ (ev_Op ev = Remove → filename = ev_Name ev →
       state p' !! filename = Some None).
Proof.
  intros Hh Hsome. split.
  - apply handleFileEvent_after in Hh
      as [->|[(rm & ->)|[(rm & upd & _ & ->)|(_ & ->)]]]; [done|..]; simpl;
      (destruct (decide (ev_Name ev = filename)) as [->|Hne];
       [rewrite lookup_insert_eq; by eexists | by rewrite lookup_insert_ne]).
  - intros Hop ->. destruct Hsome as [rmo Hst].
    rewrite (handleFileEvent_remove _ _ _ rmo) in Hh by done.
    injection Hh as <- _. simpl. by rewrite lookup_insert_eq.
Qed.

(** X8.  Every event keeps the EDS table well formed: its recordings are
    non-empty and belong to file names that have an entry in the State
    Table. *)
Theorem handleFileEvent_recorded_wf readFile p ev p' batch :
  recorded_wf p →
  handleFileEvent readFile p ev = Ok (p', batch) →
  recorded_wf p'.
Proof.
  intros Hwf Hh filename l.
  apply handleFileEvent_after in Hh
    as [->|[(rm & ->)|[(rm & upd & Hupd & ->)|(_ & ->)]]]; simpl.
  - apply Hwf.
  - intros [Hl Hs]%Hwf. split; [done|].
    destruct (decide (ev_Name ev = filename)) as [->|Hne];
      [rewrite lookup_insert_eq; by eexists | by rewrite lookup_insert_ne].
  - destruct (decide (ev_Name ev = filename)) as [->|Hne].
    + rewrite !lookup_insert_eq. intros [= <-]. split; [|by eexists].
      intros Happ. by apply app_eq_nil in Happ as [_ ?].
    + rewrite !lookup_insert_ne by done. apply Hwf.
  - destruct (decide (ev_Name ev = filename)) as [->|Hne].
    + by rewrite lookup_delete_eq.
    + rewrite lookup_delete_ne, lookup_insert_ne by done. apply Hwf.
Qed.

(** X9.  A second remove event on a file changes nothing and sends
    nothing, whatever the first one did. *)
Theorem handleFileEvent_remove_twice readFile readFile' p ev p' batch :
  ev_Op ev = Remove →
  handleFileEvent readFile p ev = Ok (p', batch) →
  handleFileEvent readFile' p' ev = Ok (p', None).
Proof.
  intros Hop Hh.
  destruct (state p !! ev_Name ev) as [rmo|] eqn:Hst.
  - rewrite (handleFileEvent_remove _ _ _ rmo) in Hh by done.
    injection Hh as <- _.
    rewrite (handleFileEvent_remove _ _ _ None) by (done || simpl; by rewrite lookup_insert_eq).
    unfold getSlice. simpl. rewrite lookup_delete_eq. simpl.
    unfold set_updatedUpstreamsFromEDS, set_state. simpl.
    rewrite insert_insert_eq. f_equal. f_equal. f_equal.
    apply map_eq. intros k. destruct (decide (ev_Name ev = k)) as [->|Hne].
    + by rewrite !lookup_delete_eq.
    + by rewrite !lookup_delete_ne.
  - unfold handleFileEvent in *.
    rewrite decide_False in * by (intros Hne; by apply Hne).
    rewrite Hst in Hh. injection Hh as <- _. by rewrite Hst.
Qed.

End Tables.

(* --------------------------------------------------------------------- *)
(* Run and handleInitialFileEvents                                       *)
(* --------------------------------------------------------------------- *)



Lemma collectFiles_inl fs paths : ∀ acc err,
  collectFiles fs paths acc = inl err →
  ∃ path, path ∈ paths
    ∧ (err = ErrStat path ∧ Stat fs path = None
       ∨ err = ErrWalk path ∧ (IsDir <$> Stat fs path) = Some true).
Proof.
  induction paths as [|path paths IH]; intros acc err Hc; [done|].
  cbn [collectFiles] in Hc.
  destruct (Stat fs path) as [info|] eqn:Hs.
  - destruct (IsDir info) eqn:Hd; cbn [negb] in Hc.
    + destruct (walkFiles (WalkVisits fs path) acc) as [acc'|].
      * apply IH in Hc as (path' & Hin & Hor). exists path'. split; [by right|done].
      * injection Hc as <-. exists path. split; [by left|]. right.
        rewrite Hs. simpl. by rewrite Hd.
    + apply IH in Hc as (path' & Hin & Hor). exists path'. split; [by right|done].
  - injection Hc as <-. exists path. split; [by left|]. by left.
Qed.

Lemma addWatches_Some fs paths err :
  addWatches fs paths = Some err →
  ∃ path, path ∈ paths ∧ err = ErrWatcherAdd path ∧ WatcherAdd fs path = false.
Proof.
  induction paths as [|path paths IH]; [done|]. cbn [addWatches].
  destruct (WatcherAdd fs path) eqn:Hw.
  - intros (path' & Hin & Hor)%IH. exists path'. split; [by right|done].
  - intros [= <-]. exists path. split; [by left|done].
Qed.

Section RunFacts.
Context {A : Adaptor} {D : Decoder}.


(** X11.  Run returns an error only for a configured path: one that
    cannot be examined or walked, and then no file has been processed and
    nothing sent; or one that the watcher refuses, after the initial
    scan.  An error ends Run before any message is received. *)
Theorem Run_errors fs p msgs o returned err :
  Run fs p msgs = Ok (o, returned) →
  out_err o = Some err →
  returned = true
  ∧ Run fs p [] = Ok (o, true)
  ∧ ∃ path, path ∈ files p
      ∧ ((err = ErrStat path ∨ err = ErrWalk path) ∧ out_p o = p ∧ out_sent o = []
         ∨ err = ErrWatcherAdd path ∧ WatcherAdd fs path = false
           ∧ handleInitialFileEvents fs p = Ok (mkOutcome None (out_p o) (out_sent o))).
Proof.
  unfold Run.
  destruct (handleInitialFileEvents fs p) as [o1|] eqn:Hi; [|done]. cbn [rbind].
  destruct (out_err o1) as [err1|] eqn:He1.
  - intros [= <- <-] He. split_and!; [done|done|].
    rewrite He1 in He. injection He as ->.
    unfold handleInitialFileEvents in Hi.
    destruct (collectFiles fs (files p) []) as [err'|names] eqn:Hc.
    + injection Hi as <-. simpl in He1. injection He1 as ->.
      apply collectFiles_inl in Hc as (path & Hin & [[-> _]|[-> _]]);
        exists path; (split; [done|]); left; split_and!; auto.
    + destruct (handleFiles (ReadFile fs) names p []) as [[p' sent]|]; [|done].
      by injection Hi as <-.
  - assert (files (out_p o1) = files p) as Hfiles.
    { clear -Hi. unfold handleInitialFileEvents in Hi.
      destruct (collectFiles fs (files p) []) as [err'|names]; [by injection Hi as <-|].
      assert (∀ names p0 sent0 p1 sent1,
                handleFiles (ReadFile fs) names p0 sent0 = Ok (p1, sent1) →
                files p1 = files p0) as Hf.
      { clear. intros names. induction names as [|n names IH]; intros p0 sent0 p1 sent1 Hh.
        - by injection Hh as <- _.
        - cbn [handleFiles] in Hh.
          destruct (handleFileEvent (ReadFile fs) p0 (mkFsEvent n Write))
            as [[p2 batch]|] eqn:Hev; [|done].
          cbn [rbind] in Hh. apply IH in Hh as ->.
          by apply handleFileEvent_other_files in Hev as [-> _]. }
      destruct (handleFiles (ReadFile fs) names p []) as [[p' sent]|] eqn:Hh; [|done].
      injection Hi as <-. simpl. by eapply Hf. }
    destruct (addWatches fs (files (out_p o1))) as [err2|] eqn:Ha.
    + intros [= <- <-] He. simpl in He. injection He as ->.
      split_and!; [done|done|].
      rewrite Hfiles in Ha.
      apply addWatches_Some in Ha as (path & Hin & -> & Hw).
      exists path. split; [done|]. right. split_and!; [done|done|].
      simpl. destruct o1 as [e1 p1 s1]. simpl in *. by subst.
    + destruct (watchLoop msgs (out_p o1) (out_sent o1)) as [[[p' sent] r]|]; [|done].
      by intros [= <- <-].
Qed.

End RunFacts.

Section LoopFacts.
Context {A : Adaptor} {D : Decoder}.

Lemma watchLoop_relevant msgs : ∀ p sent,
  watchLoop msgs p sent = watchLoop (List.filter relevant msgs) p sent.
Proof.
  induction msgs as [|[| |readFile ev] msgs IH]; intros p sent; [done|done|..].
  - cbn [List.filter relevant watchLoop]. apply IH.
  - cbn [List.filter relevant]. destruct (handled (ev_Op ev)) eqn:Hh.
    + cbn [watchLoop]. rewrite Hh.
      destruct (handleFileEvent readFile p ev) as [[p' batch]|]; [|done].
      cbn [rbind]. apply IH.
    + cbn [watchLoop]. rewrite Hh. apply IH.
Qed.

Lemma watchLoop_stop before : ∀ after p sent,
  watchLoop (before ++ MsgStop :: after) p sent
  = watchLoop (before ++ [MsgStop]) p sent.
Proof.
  induction before as [|[| |readFile ev] before IH]; intros after p sent;
    [done|done|..]; cbn [app watchLoop].
  - apply IH.
  - destruct (handled (ev_Op ev)); [|apply IH].
    destruct (handleFileEvent readFile p ev) as [[p' batch]|]; [|done].
    cbn [rbind]. apply IH.
Qed.

(** X12.  The loop of Run acts on the stop signal and on the events whose
    Op is exactly Create, Write or Remove: errors of the watcher and
    events of any other Op, such as Chmod or a combination of bits,
    change nothing.  Nothing that follows the stop signal is handled.
    A Create event is handled as a Write event. *)
Theorem watchLoop_acts_on msgs before after p sent readFile name :
  watchLoop msgs p sent = watchLoop (List.filter relevant msgs) p sent
  ∧ watchLoop (before ++ MsgStop :: after) p sent
    = watchLoop (before ++ [MsgStop]) p sent
  ∧ relevant (MsgEvent readFile (mkFsEvent name Chmod)) = false
  ∧ relevant (MsgEvent readFile (mkFsEvent name (N.lor Write Chmod))) = false
  ∧ handleFileEvent readFile p (mkFsEvent name Create)
    = handleFileEvent readFile p (mkFsEvent name Write).
Proof.
  split_and!; [apply watchLoop_relevant|apply watchLoop_stop|done|done|].
  reflexivity.
Qed.

Lemma kept_step watched readFile p sent ev p' batch :
  kept watched p sent →
  handleFileEvent readFile p ev = Ok (p', batch) →
  kept watched p' (sendBatch batch sent).
Proof.
  intros (Hf & Hwf & Hs) Hh. split_and!.
  - by apply handleFileEvent_other_files in Hh as [-> _].
  - by eapply handleFileEvent_recorded_wf.
  - destruct batch as [events|]; [|done]. simpl.
    apply Forall_app. split; [done|]. apply Forall_singleton.
    unfold handleFileEvent in Hh. case_decide.
    + destruct (readFile (ev_Name ev)); [|done].
      destruct (Unmarshal l); [|done].
      destruct (generateEventsFromDiscoveryResponseV3 p (ev_Name ev) d)
        as [[evs p1]|]; [|done].
      simpl in Hh. injection Hh as _ Hd. by apply dispatch_Some in Hd as [-> ?].
    + destruct (state p !! ev_Name ev); [|done].
      destruct (generateEvents p (ev_Name ev) o None) as [evs p1].
      injection Hh as _ Hd. by apply dispatch_Some in Hd as [-> ?].
Qed.

Lemma kept_handleFiles watched readFile names : ∀ p sent p' sent',
  kept watched p sent →
  handleFiles readFile names p sent = Ok (p', sent') →
  kept watched p' sent'.
Proof.
  induction names as [|n names IH]; intros p sent p' sent' Hk Hh.
  - by injection Hh as <- <-.
  - cbn [handleFiles] in Hh.
    destruct (handleFileEvent readFile p (mkFsEvent n Write))
      as [[p1 batch]|] eqn:Hev; [|done].
    cbn [rbind] in Hh. eapply IH; [|done]. by eapply kept_step.
Qed.

Lemma kept_watchLoop watched msgs : ∀ p sent p' sent' returned,
  kept watched p sent →
  watchLoop msgs p sent = Ok (p', sent', returned) →
  kept watched p' sent'.
Proof.
  induction msgs as [|[| |readFile ev] msgs IH]; intros p sent p' sent' r Hk Hw;
    cbn [watchLoop] in Hw.
  - by injection Hw as <- <- _.
  - by injection Hw as <- <- _.
  - by eapply IH.
  - destruct (handled (ev_Op ev)); [|by eapply IH].
    destruct (handleFileEvent readFile p ev) as [[p1 batch]|] eqn:Hev; [|done].
    cbn [rbind] in Hw. eapply IH; [|done]. by eapply kept_step.
Qed.

(** X13.  A provisioner made by NewXDSProvisioner watches the configured
    paths, of which there is at least one, and starts with empty tables.
    Through the whole of Run it keeps watching exactly these paths, its
    EDS table stays well formed, and every batch it sends has at least
    one event. *)
Theorem Run_keeps env cfg p fs msgs o returned :
  NewXDSProvisioner env cfg = inr p →
  Run fs p msgs = Ok (o, returned) →
  config.XDSWatchFiles cfg ≠ []
  ∧ p = mkProvisioner (config.XDSWatchFiles cfg) ∅ ∅ ∅
  ∧ files (out_p o) = config.XDSWatchFiles cfg
  ∧ recorded_wf (out_p o)
  ∧ Forall (λ batch, batch ≠ []) (out_sent o).
Proof.
  intros Hnew Hrun.
  assert (config.XDSWatchFiles cfg ≠ []
          ∧ p = mkProvisioner (config.XDSWatchFiles cfg) ∅ ∅ ∅) as [Hne ->].
  { unfold NewXDSProvisioner in Hnew. case_decide as Hlen; [done|].
    destruct (newWatcherOk env), (newLoggerOk env), (newAdaptorOk env);
      try done; simpl in Hnew.
    injection Hnew as <-. split; [|done]. intros Hnil. by rewrite Hnil in Hlen. }
  split; [done|]. split; [done|].
  set (p0 := mkProvisioner (config.XDSWatchFiles cfg) ∅ ∅ ∅) in *.
  assert (kept (config.XDSWatchFiles cfg) p0 []) as Hk0.
  { split_and!; [done| |done]. intros filename l. simpl. by rewrite lookup_empty. }
  assert (kept (config.XDSWatchFiles cfg) (out_p o) (out_sent o)) as (?&?&?);
    [|done].
  unfold Run, handleInitialFileEvents in Hrun.
  destruct (collectFiles fs (files p0) []) as [err|names].
  - cbn [rbind out_err] in Hrun. by injection Hrun as <- _.
  - destruct (handleFiles (ReadFile fs) names p0 []) as [[p1 sent1]|] eqn:Hh; [|done].
    cbn [rbind out_err out_p out_sent] in Hrun.
    pose proof (kept_handleFiles _ _ _ _ _ _ _ Hk0 Hh) as Hk1.
    destruct (addWatches fs (files p1)) as [err|].
    + by injection Hrun as <- _.
    + destruct (watchLoop msgs p1 sent1) as [[[p2 sent2] r]|] eqn:Hw; [|done].
      cbn [rbind] in Hrun. injection Hrun as <- _. simpl.
      by eapply kept_watchLoop.
Qed.

End LoopFacts.

(* --------------------------------------------------------------------- *)
(* The port lists of the iptables command                                *)
(* --------------------------------------------------------------------- *)

Section PortLists.
Import iptables.

Lemma splitComma_comma_free s : Forall (λ x, hasComma x = false) (splitComma s).
Proof.
  induction s as [|c s IH]; [by repeat constructor|].
  cbn [splitComma]. case_decide as Hc; [by constructor|].
  destruct (splitComma s) as [|h t].
  { repeat constructor. simpl. by rewrite bool_decide_eq_false_2. }
  apply Forall_cons in IH as [Hh Ht]. constructor; [|done].
  simpl. by rewrite bool_decide_eq_false_2.
Qed.

Lemma splitComma_one s : hasComma s = false → splitComma s = [s].
Proof.
  induction s as [|c s IH]; [done|]. simpl.
  intros [Hc Hs]%orb_false_elim. apply bool_decide_eq_false in Hc.
  rewrite decide_False by done. by rewrite IH.
Qed.

Lemma splitComma_append s rest :
  hasComma s = false →
  splitComma (s +:+ "," +:+ rest) = s :: splitComma rest.
Proof.
  induction s as [|c s IH]; [done|]. simpl.
  intros [Hc Hs]%orb_false_elim. apply bool_decide_eq_false in Hc.
  rewrite decide_False by done. by rewrite IH.
Qed.

Lemma splitComma_concat (l : list string) :
  l ≠ [] → Forall (λ x, hasComma x = false) l →
  splitComma (String.concat "," l) = l.
Proof.
  induction l as [|x l IH]; [done|]. intros _ [Hx Hl]%Forall_cons.
  destruct l as [|y l]; [by apply splitComma_one|].
  change (String.concat "," (x :: y :: l))
    with (x +:+ "," +:+ String.concat "," (y :: l)).
  rewrite splitComma_append by done. by rewrite IH.
Qed.

Lemma elem_of_filterEmpty (l : list string) x :
  x ∈ filterEmpty l ↔ x ∈ l ∧ x ≠ EmptyString.
Proof.
  induction l as [|y l IH]; simpl.
  - split; [by intros ?%elem_of_nil|by intros [?%elem_of_nil _]].
  - case_decide as Hy.
    + rewrite IH, elem_of_cons. split.
      * intros [? ?]. split; [by right|done].
      * intros [[->|?] ?]; [done|by split].
    + rewrite !elem_of_cons, IH. split.
      * intros [->|[? ?]]; (split; [|done]); [by left|by right].
      * intros [[->|?] ?]; [by left|right; by split].
Qed.

Lemma filterEmpty_id (l : list string) :
  Forall (λ x, x ≠ EmptyString) l → filterEmpty l = l.
Proof.
  induction 1 as [|x l Hx Hl IH]; [done|]. simpl.
  by rewrite decide_False, IH.
Qed.

(** X14.  Every port that split returns is a non-empty string without a
    comma: empty fields, as between two commas or at either end of the
    list, are dropped. *)
Theorem split_ports (s : string) : Forall portLike (split s).
Proof.
  unfold split. case_decide; [by constructor|].
  apply Forall_forall. intros x [Hx Hne]%elem_of_filterEmpty.
  split; [done|].
  pose proof (splitComma_comma_free s) as Hf. rewrite Forall_forall in Hf.
  by apply Hf.
Qed.

(** X15.  split undoes the joining of ports with commas. *)
Theorem split_join (ports : list string) :
  Forall portLike ports → split (String.concat "," ports) = ports.
Proof.
  intros Hp. destruct ports as [|x ports]; [done|].
  assert (Forall (λ x, hasComma x = false) (x :: ports)) as Hc
    by (eapply Forall_impl; [exact Hp|by intros ? [_ ?]]).
  assert (Forall (λ x, x ≠ EmptyString) (x :: ports)) as Hn
    by (eapply Forall_impl; [exact Hp|by intros ? [? _]]).
  unfold split. rewrite decide_False.
  - rewrite splitComma_concat by done. by apply filterEmpty_id.
  - intros He. apply Forall_cons in Hn as [Hx _].
    destruct ports; simpl in He; [done|by destruct x].
Qed.

End PortLists.

(* --------------------------------------------------------------------- *)
(* The rules of the iptables command                                     *)
(* --------------------------------------------------------------------- *)

Section Rules.
Import iptables.
Context {C : ChainNames}.

Lemma foldl_AppendRuleV4 (chain table : string) (f : string → list string)
    (ports : list string) : ∀ b,
  foldl (λ b port, AppendRuleV4 b chain table (f port)) b ports
  = b ++ ((λ port, mkRule chain table (f port)) <$> ports).
Proof.
  induction ports as [|port ports IH]; intros b; simpl.
  - by rewrite app_nil_r.
  - rewrite IH. unfold AppendRuleV4. by rewrite <-app_assoc.
Qed.

(** X16.  With a list of inbound ports (neither empty nor the wildcard),
    insertInboundRules appends the jump of PREROUTING to the inbound
    chain and then one redirecting rule per port of the list, in order;
    it appends no rule for port 22.  A value without any port, such as a
    lone comma, still appends the jump. *)
Theorem insertInboundRules_ports (cfg : Config) (b : list Rule) :
  InboundPortsInclude cfg ≠ "" →
  InboundPortsInclude cfg ≠ "*" →
  insertInboundRules cfg b
  = b ++ jumpInboundRule :: (inboundPortRule <$> split (InboundPortsInclude cfg)).
Proof.
  intros Hne Hnw. unfold insertInboundRules.
  rewrite !decide_False by done.
  rewrite (foldl_AppendRuleV4 InboundChain "nat"
             (λ port, ["-p"; "tcp"; "--dport"; port; "-j"; RedirectChain])).
  unfold AppendRuleV4. by rewrite <-app_assoc.
Qed.

Lemma insertInboundRules_appends (cfg : Config) (b : list Rule) :
  insertInboundRules cfg b = b ++ insertInboundRules cfg [].
Proof.
  destruct (decide (InboundPortsInclude cfg = "")) as [He|Hne].
  - unfold insertInboundRules. rewrite !decide_True by done. by rewrite app_nil_r.
  - destruct (decide (InboundPortsInclude cfg = "*")) as [Hw|Hnw].
    + unfold insertInboundRules, AppendRuleV4.
      repeat case_decide; try done. simpl. by rewrite <-!app_assoc.
    + by rewrite !insertInboundRules_ports.
Qed.

Lemma insertInboundRules_natTcp (cfg : Config) :
  Forall natTcp (insertInboundRules cfg []).
Proof.
  destruct (decide (InboundPortsInclude cfg = "")) as [He|Hne].
  - unfold insertInboundRules. by rewrite decide_True.
  - destruct (decide (InboundPortsInclude cfg = "*")) as [Hw|Hnw].
    + unfold insertInboundRules, AppendRuleV4.
      rewrite decide_False, decide_True by done. by repeat constructor.
    + rewrite insertInboundRules_ports by done. simpl.
      constructor; [done|]. by apply Forall_fmap, Forall_true.
Qed.

(** X17.  The rules that run builds: first the REDIRECT of the redirect
    chain to the proxy port, then the inbound rules, then one redirecting
    rule of the OUTPUT chain per outbound port, in order; the outbound
    ports have no wildcard, a star is taken as a port.  Every rule is a
    rule of the nat table on TCP traffic. *)
Theorem run_rules (cfg : Config) :
  run cfg = proxyRule cfg :: insertInboundRules cfg []
              ++ (outboundPortRule <$> split (OutboundPortsInclude cfg))
  ∧ Forall natTcp (run cfg)
  ∧ split "*" = ["*"].
Proof.
  assert (run cfg = proxyRule cfg :: insertInboundRules cfg []
              ++ (outboundPortRule <$> split (OutboundPortsInclude cfg))) as Hrun.
  { unfold run, insertOutboundRules.
    rewrite (foldl_AppendRuleV4 OutputChain "nat"
               (λ port, ["-p"; "tcp"; "--dport"; port; "-j"; RedirectChain])).
    by rewrite insertInboundRules_appends. }
  split_and!; [done| |done].
  rewrite Hrun. constructor; [done|]. apply Forall_app. split.
  - apply insertInboundRules_natTcp.
  - by apply Forall_fmap, Forall_true.
Qed.

End Rules.

(** X18.  executeCommand runs every command of the builder, in order, with
    its first word as the program and the others as the arguments,
    whether the command has one word or more; it panics exactly when
    some command is empty. *)
Theorem executeCommand_calls (commands : list (list string)) :
  (Forall (λ cmd, cmd ≠ []) commands →
     executeCommand commands
     = Ok ((λ cmd, (default EmptyString (head cmd), tail cmd)) <$> commands))
  ∧ (executeCommand commands = Panic ↔ Exists (λ cmd, cmd = []) commands).
Proof.
  assert (∀ cmd, cmd ≠ [] →
            runCommand cmd = Ok (default EmptyString (head cmd), tail cmd)) as Hone.
  { intros [|c [|c' cmd]] Hne; [done|done|]. unfold runCommand.
    rewrite decide_True by (simpl; lia). done. }
  assert (Forall (λ cmd, cmd ≠ []) commands →
     executeCommand commands
     = Ok ((λ cmd, (default EmptyString (head cmd), tail cmd)) <$> commands)) as Hok.
  { induction 1 as [|cmd commands Hc Hcs IH]; [done|].
    cbn [executeCommand]. rewrite Hone by done. cbn [rbind]. by rewrite IH. }
  split; [done|]. split.
  - intros Hp. destruct (decide (Forall (λ cmd, cmd ≠ []) commands)) as [Hf|Hnf].
    + by rewrite Hok in Hp.
    + apply not_Forall_Exists in Hnf; [|apply _].
      eapply Exists_impl; [exact Hnf|]. intros cmd Hcmd.
      by destruct (decide (cmd = [])).
  - clear Hok Hone. induction 1 as [cmd commands ->|cmd commands He IH]; [done|].
    cbn [executeCommand]. destruct (runCommand cmd); [|done].
    cbn [rbind]. by rewrite IH.
Qed.

(* --------------------------------------------------------------------- *)
(* The further properties on concrete inputs                             *)
(* --------------------------------------------------------------------- *)

Section FurtherExamples.
Import Demo Samples.

Lemma processResources_manifest_witness :
  Routes (mkManifest [route "r"] [endpoints "a" [node1]; cluster "b"])
    = concat (processRouteConfigurationV3
                <$> List.filter isRoute
                      [Cluster "ab"; RouteConfiguration "r"; ClusterLoadAssignment "ac"])
  ∧ ups_Name <$> Upstreams (mkManifest [route "r"] [endpoints "a" [node1]; cluster "b"])
    = ups_Name <$> concat (processClusterV3
                <$> List.filter isCluster
                      [Cluster "ab"; RouteConfiguration "r"; ClusterLoadAssignment "ac"])
  ∧ [endpoints "c" [node1]]
      `sublist_of`
    concat (processClusterLoadAssignmentV3
              <$> List.filter isLoadAssignment
                    [Cluster "ab"; RouteConfiguration "r"; ClusterLoadAssignment "ac"]).
Proof.
  apply (processResources_manifest
           [Cluster "ab"; RouteConfiguration "r"; ClusterLoadAssignment "ac"]).
  reflexivity.
Defined.

Lemma handleFileEvent_no_panic_witness :
  @handleFileEvent single decoder (holding "CaCbEb") recordedX (mkFsEvent file Write)
  ≠ Panic.
Proof.
  apply (handleFileEvent_no_panic (A := single)).
  intros res. simpl. lia.
Defined.

Lemma handleFileEvent_other_files_witness :
  files recordedX = files emptyProvisioner
  ∧ upstreamCache recordedX = upstreamCache emptyProvisioner
  ∧ ∀ other, other ≠ ev_Name (mkFsEvent file Write) →
      state recordedX !! other = state emptyProvisioner !! other
      ∧ updatedUpstreamsFromEDS recordedX !! other
        = updatedUpstreamsFromEDS emptyProvisioner !! other.
Proof.
  eapply (handleFileEvent_other_files (holding "Ex") emptyProvisioner
            (mkFsEvent file Write)).
  reflexivity.
Defined.

Lemma handleFileEvent_state_entries_stay_witness :
  is_Some (state (set_updatedUpstreamsFromEDS (delete file)
                    (set_state <[file := None]> recordedX)) !! file)
  ∧ (ev_Op (mkFsEvent file Remove) = Remove →
     file = ev_Name (mkFsEvent file Remove) →
     state (set_updatedUpstreamsFromEDS (delete file)
              (set_state <[file := None]> recordedX)) !! file = Some None).
Proof.
  eapply (handleFileEvent_state_entries_stay unreadable recordedX
            (mkFsEvent file Remove)).
  - reflexivity.
  - by eexists.
Defined.

Lemma handleFileEvent_recorded_wf_witness : recorded_wf recordedX.
Proof.
  eapply (handleFileEvent_recorded_wf (holding "Ex") emptyProvisioner
            (mkFsEvent file Write)).
  - intros filename l. simpl. by rewrite lookup_empty.
  - reflexivity.
Defined.

Lemma handleFileEvent_remove_twice_witness :
  handleFileEvent (holding "Ca")
    (set_updatedUpstreamsFromEDS (delete file) (set_state <[file := None]> recordedX))
    (mkFsEvent file Remove)
  = Ok (set_updatedUpstreamsFromEDS (delete file)
          (set_state <[file := None]> recordedX), None).
Proof.
  eapply (handleFileEvent_remove_twice unreadable (holding "Ca") recordedX
            (mkFsEvent file Remove)).
  - reflexivity.
  - reflexivity.
Defined.

(** The initial scan of the directory with two files: two passes, of
    which the first adds the cluster and the second finds it again under
    another file name. *)
Example initial_scan_two_files :
  handleInitialFileEvents twoFiles watchingDir
  = Ok (mkOutcome None
          (mkProvisioner ["/etc/xds"]
             (<["/etc/xds/b.json" := Some (mkManifest [] [cluster "a"])]>
                (<["/etc/xds/a.json" := Some (mkManifest [] [cluster "a"])]> ∅))
             ∅ ∅)
          [[mkEvent EventAdd (UpstreamObject (cluster "a"))];
           [mkEvent EventAdd (UpstreamObject (cluster "a"))]]).
Proof. reflexivity. Qed.


Lemma Run_errors_witness :
  true = true
  ∧ Run brokenWalk watchingDir []
    = Ok (mkOutcome (Some (ErrWalk "/etc/xds")) watchingDir [], true)
  ∧ ∃ path, path ∈ files watchingDir
      ∧ ((ErrWalk "/etc/xds" = ErrStat path ∨ ErrWalk "/etc/xds" = ErrWalk path)
           ∧ watchingDir = watchingDir ∧ @nil (list Event) = []
         ∨ ErrWalk "/etc/xds" = ErrWatcherAdd path
           ∧ WatcherAdd brokenWalk path = false
           ∧ handleInitialFileEvents brokenWalk watchingDir
             = Ok (mkOutcome None watchingDir [])).
Proof.
  apply (Run_errors brokenWalk watchingDir
           [MsgEvent (holding "Ca") (mkFsEvent "/etc/xds/a.json" Write)]
           (mkOutcome (Some (ErrWalk "/etc/xds")) watchingDir []) true
           (ErrWalk "/etc/xds")).
  - reflexivity.
  - reflexivity.
Defined.

Lemma Run_keeps_witness :
  let scanned :=
    mkProvisioner ["/etc/xds"]
      (<["/etc/xds/b.json" := Some (mkManifest [] [cluster "a"])]>
         (<["/etc/xds/a.json" := Some (mkManifest [] [cluster "a"])]> ∅))
      ∅ ∅ in
  config.XDSWatchFiles (config.mkConfig ["/etc/xds"] "info" "stderr") ≠ []
  ∧ watchingDir = mkProvisioner ["/etc/xds"] ∅ ∅ ∅
  ∧ files scanned = ["/etc/xds"]
  ∧ recorded_wf scanned
  ∧ Forall (λ batch, batch ≠ [])
      [[mkEvent EventAdd (UpstreamObject (cluster "a"))];
       [mkEvent EventAdd (UpstreamObject (cluster "a"))]].
Proof.
  intros scanned.
  apply (Run_keeps (mkConstructors true true true)
           (config.mkConfig ["/etc/xds"] "info" "stderr")
           watchingDir twoFiles
           [MsgError; MsgEvent unreadable (mkFsEvent "/etc/xds/a.json" Chmod); MsgStop]
           (mkOutcome None scanned
              [[mkEvent EventAdd (UpstreamObject (cluster "a"))];
               [mkEvent EventAdd (UpstreamObject (cluster "a"))]])
           true).
  - reflexivity.
  - reflexivity.
Defined.

Lemma split_join_witness :
  iptables.split (String.concat "," ["80"; "443"; "8080"]) = ["80"; "443"; "8080"].
Proof.
  apply split_join. repeat constructor; discriminate.
Defined.

Lemma insertInboundRules_ports_witness :
  iptables.insertInboundRules
    (iptables.mkConfig "REDIRECT" "9080" "80,,443" "" false) []
  = [] ++ iptables.jumpInboundRule
       :: (inboundPortRule <$> iptables.split "80,,443").
Proof.
  apply (insertInboundRules_ports
           (iptables.mkConfig "REDIRECT" "9080" "80,,443" "" false) []);
    discriminate.
Defined.

Lemma executeCommand_calls_witness :
  executeCommand [["iptables"; "-t"; "nat"; "-N"; "APISIX_REDIRECT"]; ["iptables-save"]]
  = Ok [("iptables", ["-t"; "nat"; "-N"; "APISIX_REDIRECT"]); ("iptables-save", [])].
Proof.
  apply (executeCommand_calls
           [["iptables"; "-t"; "nat"; "-N"; "APISIX_REDIRECT"]; ["iptables-save"]]).
  repeat constructor; discriminate.
Defined.

End FurtherExamples.
